(** * vp-suite: segmentation network, dataset, training loop and value-range adapters

    A shallow embedding of the Python sources

      - [models/seg_model.py]   (UNet, DoubleConv)
      - [dataset.py]            (SynpickDataset, to_torch)
      - [main.py], [config.py]  (the training / checkpointing loop)
      - [vp_suite/utils/utils.py] (ScaleToTest, ScaleToModel,
                                   check_model_compatibility)

    Tensors are modelled at the level the properties need: the network by
    the shapes its layers produce (with the shape errors torch raises),
    the value-range adapters by exact rational arithmetic on the stored
    elements, the dataset by the arrays read from a file store. *)

From Stdlib Require Import ZArith QArith Qcanon Field String Ascii List Lia.
From stdpp Require Import base option list strings gmap sorting pretty.

(** ** Python exceptions and fallible computations *)

Inductive PyError : Type :=
| TypeError (msg : string)
| ValueError (msg : string)
| IndexError (msg : string)
| KeyError (key : string)
| RuntimeError (msg : string)
| AssertionError (msg : string)
| FileNotFoundError (path : string)
| FileExistsError (path : string)
| CvError (msg : string).

Inductive result (A : Type) : Type :=
| OK (a : A)
| Raise (e : PyError).
Arguments OK {A} a.
Arguments Raise {A} e.

#[export] Instance result_ret : MRet result := fun A a => OK a.
#[export] Instance result_bind : MBind result := fun A B f r =>
  match r with
  | OK a => f a
  | Raise e => Raise e
  end.
#[export] Instance result_fmap : FMap result := fun A B f r =>
  match r with
  | OK a => OK (f a)
  | Raise e => Raise e
  end.

Definition raises {A} (r : result A) : Prop :=
  match r with OK _ => False | Raise _ => True end.

(** [l[i]] for a Python list and a non-negative index. *)
Definition index {A} (l : list A) (i : nat) : result A :=
  match l !! i with
  | Some a => OK a
  | None => Raise (IndexError "list index out of range")
  end.

(** [l[i]] with Python's negative indices. *)
Definition py_index {A} (l : list A) (i : Z) : result A :=
  if decide (0 <= i)%Z then index l (Z.to_nat i)
  else if decide (- Z.of_nat (length l) <= i)%Z
       then index l (Z.to_nat (Z.of_nat (length l) + i))
       else Raise (IndexError "list index out of range").

(** [range(0, n, 2)] *)
Definition range_step2 (n : nat) : list nat :=
  map (fun j => 2 * j) (seq 0 (Nat.div2 (n + 1))).

(** * models/seg_model.py *)

Module seg_model.
Local Open Scope Z_scope.

(** The shape of a batched feature map, [(batch, channels, height, width)]. *)
Record Shape : Type := NCHW { batch : Z; channels : Z; height : Z; width : Z }.

#[export] Instance Shape_eq_dec : EqDecision Shape.
Proof. solve_decision. Defined.

(** The torch layers the network is built from. *)
Inductive Layer : Type :=
| Conv2d (in_channels out_channels kernel_size stride padding : Z)
| BatchNorm2d (num_features : Z)
| ReLU
| MaxPool2d (kernel_size stride : Z)
| ConvTranspose2d (in_channels out_channels kernel_size stride : Z).

(** Output extent of a convolution or pooling window along one axis
    (dilation 1, floor mode): [floor((n + 2p - (k-1) - 1) / s) + 1]. *)
Definition window_out (n k s p : Z) : Z := (n + 2 * p - (k - 1) - 1) / s + 1.

(** Output extent of a transposed convolution along one axis
    (dilation 1, no padding): [(n-1)*s + (k-1) + 1]. *)
Definition transposed_out (n k s : Z) : Z := (n - 1) * s + (k - 1) + 1.

(** What a layer does to the shape of its input, and when torch rejects
    the input.  [training] is the module's mode flag: batch normalisation
    in training mode needs more than one value per channel. *)
Definition Layer_forward (training : bool) (l : Layer) (x : Shape) : result Shape :=
  let '(NCHW b c h w) := x in
  match l with
  | Conv2d cin cout k s p =>
      if decide (c ≠ cin) then Raise (RuntimeError "expected input to have in_channels channels")
      else if decide (h + 2 * p < k ∨ w + 2 * p < k)
           then Raise (RuntimeError "Kernel size can't be greater than actual input size")
      else OK (NCHW b cout (window_out h k s p) (window_out w k s p))
  | BatchNorm2d n =>
      if decide (c ≠ n) then Raise (RuntimeError "running_mean should contain num_features elements")
      else if training && bool_decide (b * h * w = 1)
           then Raise (ValueError "Expected more than 1 value per channel when training")
      else OK x
  | ReLU => OK x
  | MaxPool2d k s =>
      if decide (window_out h k s 0 < 1 ∨ window_out w k s 0 < 1)
      then Raise (RuntimeError "Output size is too small")
      else OK (NCHW b c (window_out h k s 0) (window_out w k s 0))
  | ConvTranspose2d cin cout k s =>
      if decide (c ≠ cin) then Raise (RuntimeError "expected input to have in_channels channels")
      else if decide (h < 1 ∨ w < 1) then Raise (RuntimeError "non-positive input size")
      else OK (NCHW b cout (transposed_out h k s) (transposed_out w k s))
  end.

(** [nn.Sequential]: the layers in order. *)
Fixpoint Sequential_forward (training : bool) (layers : list Layer) (x : Shape)
  : result Shape :=
  match layers with
  | [] => OK x
  | l :: rest => x' ← Layer_forward training l x; Sequential_forward training rest x'
  end.

(** [class DoubleConv] *)
Record DoubleConv : Type := { conv : list Layer }.

Definition DoubleConv_init (in_channels out_channels : Z) : DoubleConv :=
  {| conv := [ Conv2d in_channels out_channels 3 1 1;
               BatchNorm2d out_channels;
               ReLU;
               Conv2d out_channels out_channels 3 1 1;
               BatchNorm2d out_channels;
               ReLU ] |}.

Definition DoubleConv_forward (training : bool) (d : DoubleConv) (x : Shape)
  : result Shape :=
  Sequential_forward training (conv d) x.

(** The entries of [self.ups]: transposed convolutions and DoubleConvs
    alternate in one module list. *)
Inductive Module : Type :=
| Single (l : Layer)
| Double (d : DoubleConv).

Definition Module_forward (training : bool) (m : Module) (x : Shape) : result Shape :=
  match m with
  | Single l => Layer_forward training l x
  | Double d => DoubleConv_forward training d x
  end.

(** [class UNet] *)
Record UNet : Type := {
  downs : list DoubleConv;
  ups : list Module;
  pool : Layer;
  bottleneck : DoubleConv;
  final_conv : Layer;
  training : bool
}.

(** First loop of [__init__]: [in_channels] is threaded through. *)
Fixpoint make_downs (in_channels : Z) (features : list Z) : list DoubleConv :=
  match features with
  | [] => []
  | feature :: rest => DoubleConv_init in_channels feature :: make_downs feature rest
  end.

(** Second loop of [__init__], over [reversed(features)]. *)
Fixpoint make_ups (rev_features : list Z) : list Module :=
  match rev_features with
  | [] => []
  | feature :: rest =>
      Single (ConvTranspose2d (feature * 2) feature 2 2)
      :: Double (DoubleConv_init (feature * 2) feature)
      :: make_ups rest
  end.

(** [UNet.__init__]; [features[-1]] and [features[0]] raise on an empty
    list.  A fresh [nn.Module] is in training mode. *)
Definition UNet_init (in_channels out_channels : Z) (features : list Z) : result UNet :=
  f_last ← py_index features (-1);
  f_first ← py_index features 0;
  OK {| downs := make_downs in_channels features;
        ups := make_ups (reverse features);
        pool := MaxPool2d 2 2;
        bottleneck := DoubleConv_init f_last (f_last * 2);
        final_conv := Conv2d f_first out_channels 1 1 0;
        training := true |}.

(** [nn.Module.train(mode)] / [nn.Module.eval()] *)
Definition set_training (mode : bool) (m : UNet) : UNet :=
  {| downs := downs m; ups := ups m; pool := pool m; bottleneck := bottleneck m;
     final_conv := final_conv m; training := mode |}.

(** [TF.resize(x, size=(h, w))]: interpolation to the given spatial size. *)
Definition TF_resize (x : Shape) (size : Z * Z) : result Shape :=
  if decide (size.1 < 1 ∨ size.2 < 1)
  then Raise (RuntimeError "Input and output sizes should be greater than 0")
  else OK (NCHW (batch x) (channels x) size.1 size.2).

(** [torch.cat((a, b), dim=1)] *)
Definition torch_cat1 (a b : Shape) : result Shape :=
  if decide (batch a = batch b ∧ height a = height b ∧ width a = width b)
  then OK (NCHW (batch a) (channels a + channels b) (height a) (width a))
  else Raise (RuntimeError "Sizes of tensors must match except in dimension 1").

(** What one decoder stage saw: the upsampled shape, the skip connection
    and the shape that went into the concatenation. *)
Record Stage : Type := { upsampled : Shape; skip : Shape; reconciled : Shape }.

Definition resized (s : Stage) : Prop := upsampled s ≠ skip s.

#[export] Instance resized_dec s : Decision (resized s).
Proof. unfold resized. apply _. Defined.

(** The DOWN loop of [forward]. *)
Fixpoint down_loop (m : UNet) (ds : list DoubleConv) (x : Shape)
    (skip_connections : list Shape) : result (Shape * list Shape) :=
  match ds with
  | [] => OK (x, skip_connections)
  | down :: rest =>
      x1 ← DoubleConv_forward (training m) down x;
      x2 ← Layer_forward (training m) (pool m) x1;
      down_loop m rest x2 (skip_connections ++ [x1])
  end.

(** The UP loop of [forward], over the indices [range(0, len(ups), 2)]. *)
Fixpoint up_loop (m : UNet) (skip_connections : list Shape) (idxs : list nat)
    (x : Shape) (log : list Stage) : result (Shape * list Stage) :=
  match idxs with
  | [] => OK (x, log)
  | i :: rest =>
      up ← index (ups m) i;
      x1 ← Module_forward (training m) up x;
      skip_connection ← index skip_connections (i / 2)%nat;
      x2 ← (if decide (x1 ≠ skip_connection)
            then TF_resize x1 (height skip_connection, width skip_connection)
            else OK x1);
      concat_skip ← torch_cat1 skip_connection x2;
      up' ← index (ups m) (i + 1)%nat;
      x3 ← Module_forward (training m) up' concat_skip;
      up_loop m skip_connections rest x3
        (log ++ [{| upsampled := x1; skip := skip_connection; reconciled := x2 |}])
  end.

(** [UNet.forward], returning the output shape together with the record
    of the decoder stages. *)
Definition forward_log (m : UNet) (x : Shape) : result (Shape * list Stage) :=
  '(x1, skip_connections) ← down_loop m (downs m) x [];
  x2 ← DoubleConv_forward (training m) (bottleneck m) x1;
  let skip_connections := reverse skip_connections in
  '(x3, log) ← up_loop m skip_connections (range_step2 (length (ups m))) x2 [];
  y ← Layer_forward (training m) (final_conv m) x3;
  OK (y, log).

Definition forward (m : UNet) (x : Shape) : result Shape :=
  fst <$> forward_log m x.

End seg_model.

(** * dataset.py *)

Module dataset.

(** ** numpy arrays and the file store *)

Inductive dtype : Type := uint8 | float32 | object_.

#[export] Instance dtype_eq_dec : EqDecision dtype.
Proof. solve_decision. Defined.

(** An array (or tensor): shape, element type and the elements in row-major
    order.  Pixel data are small integers, which [float32] represents
    exactly, so [astype] keeps the numbers and changes the element type. *)
Record ndarray : Type := { shape : list nat; dt : dtype; data : list Z }.

Definition ndim (a : ndarray) : nat := length (shape a).

(** A stored picture, as [cv2.imread] decodes it: in colour ([rows*cols*3]
    values, BGR order) and in grey ([rows*cols] values). *)
Record ImageFile : Type := { rows : nat; cols : nat; bgr : list Z; gray : list Z }.

Inductive File : Type :=
| Picture (p : ImageFile)
| Pickle (epoch : nat).

(** Directories and their entries. *)
Abbreviation FileSystem := (gmap string (gmap string File)).

(** [os.path.join(dir, name)] of a directory and one of its entries. *)
Record Path : Type := os_path_join { dir : string; name : string }.

#[export] Instance Path_eq_dec : EqDecision Path.
Proof. solve_decision. Defined.

(** The path as the string that is handed on. *)
Definition path_str (p : Path) : string := dir p +:+ "/" +:+ name p.

Definition lookup_file (fs : FileSystem) (p : Path) : option File :=
  entries ← fs !! dir p; entries !! name p.

(** [os.listdir]; the order of the entries is the store's, not the
    caller's. *)
Definition os_listdir (fs : FileSystem) (d : string) : result (list string) :=
  match fs !! d with
  | Some entries => OK ((map_to_list entries).*1)
  | None => Raise (FileNotFoundError d)
  end.

(** [sorted] on a list of [str]: ascending, code point by code point. *)
Definition str_le (a b : string) : Prop := String.leb a b = true.

#[export] Instance str_le_dec : RelDecision str_le.
Proof. intros a b. unfold str_le. apply _. Defined.

Definition sorted (l : list string) : list string := merge_sort str_le l.

Inductive ImreadMode : Type := IMREAD_COLOR | IMREAD_GRAYSCALE.

(** [cv2.imread(path, mode)]: [None] when the file is missing or is not a
    picture. *)
Definition cv2_imread (fs : FileSystem) (p : Path) (mode : ImreadMode) : option ndarray :=
  match lookup_file fs p with
  | Some (Picture f) =>
      Some match mode with
           | IMREAD_COLOR => {| shape := [rows f; cols f; 3%nat]; dt := uint8; data := bgr f |}
           | IMREAD_GRAYSCALE => {| shape := [rows f; cols f]; dt := uint8; data := gray f |}
           end
  | _ => None
  end.

Fixpoint swap_first_third (l : list Z) : list Z :=
  match l with
  | b :: g :: r :: rest => r :: g :: b :: swap_first_third rest
  | _ => l
  end.

(** [cv2.cvtColor(image, cv2.COLOR_BGR2RGB)] *)
Definition cv2_cvtColor_BGR2RGB (image : option ndarray) : result ndarray :=
  match image with
  | None => Raise (CvError "(-215:Assertion failed) !_src.empty() in function 'cvtColor'")
  | Some a =>
      match shape a with
      | [_; _; 3%nat] => OK {| shape := shape a; dt := dt a; data := swap_first_third (data a) |}
      | _ => Raise (CvError "Invalid number of channels in input image")
      end
  end.

(** [np.expand_dims(a, axis=-1)]; [None] becomes a one-element object
    array. *)
Definition np_expand_dims_last (a : option ndarray) : ndarray :=
  match a with
  | Some a => {| shape := shape a ++ [1%nat]; dt := dt a; data := data a |}
  | None => {| shape := [1%nat]; dt := object_; data := [] |}
  end.

(** [x.transpose(2, 0, 1)] *)
Definition transpose_201 (x : ndarray) : result ndarray :=
  match shape x with
  | [h; w; c] =>
      OK {| shape := [c; h; w]; dt := dt x;
            data := flat_map (fun k =>
                      flat_map (fun i =>
                        map (fun j => nth ((i * w + j) * c + k) (data x) 0%Z) (seq 0 w))
                        (seq 0 h))
                      (seq 0 c) |}
  | _ => Raise (ValueError "axes don't match array")
  end.

(** [x.astype('float32')] *)
Definition astype_float32 (x : ndarray) : result ndarray :=
  match dt x with
  | object_ => Raise (TypeError "float() argument must be a string or a real number")
  | _ => OK {| shape := shape x; dt := float32; data := data x |}
  end.

(** [def to_torch(x, **kwargs)] *)
Definition to_torch (x : ndarray) : result ndarray :=
  t ← transpose_201 x; astype_float32 t.

(** ** Python values passed to the constructor *)

(** A joint image and mask transform, [augmentation(image=..., mask=...)]. *)
Definition Augmentation : Type := ndarray → ndarray → result (ndarray * ndarray).

Inductive Value : Type :=
| VNone
| VStr (s : string)
| VList (l : list string)
| VCallable (f : Augmentation).

Definition truthy (v : Value) : bool :=
  match v with
  | VNone => false
  | VStr s => negb (String.eqb s "")
  | VList l => negb (bool_decide (l = []))
  | VCallable _ => true
  end.

Definition call_augmentation (v : Value) (image mask : ndarray)
  : result (ndarray * ndarray) :=
  match v with
  | VCallable f => f image mask
  | _ => Raise (TypeError "object is not callable")
  end.

(** [for cls in classes]: the items the loop sees. *)
Definition iterate (v : Value) : result (list string) :=
  match v with
  | VNone => Raise (TypeError "'NoneType' object is not iterable")
  | VStr s => OK ((fun c => String c EmptyString) <$> list_ascii_of_string s)
  | VList l => OK l
  | VCallable _ => Raise (TypeError "object is not iterable")
  end.

(** A directory argument of [os.listdir]. *)
Definition as_path (v : Value) : result string :=
  match v with
  | VStr s => OK s
  | _ => Raise (TypeError "listdir: path should be string")
  end.

(** ** Binding the arguments of a call to the parameters of a [def] *)

(** A parameter with its default, if it has one. *)
Definition Parameters : Type := list (string * option Value).

Fixpoint assoc {A} (k : string) (l : list (string * A)) : option A :=
  match l with
  | [] => None
  | (k', a) :: rest => if String.eqb k k' then Some a else assoc k rest
  end.

(** Keyword call [f(k1=v1, ..., kn=vn)]: every keyword must name a
    parameter, and every parameter without a default must be given. *)
Fixpoint bind_parameters (ps : Parameters) (kwargs : list (string * Value))
  : result (list Value) :=
  match ps with
  | [] => OK []
  | (p, default) :: rest =>
      v ← match assoc p kwargs, default with
          | Some v, _ => OK v
          | None, Some d => OK d
          | None, None => Raise (TypeError ("missing required positional argument: " +:+ p))
          end;
      vs ← bind_parameters rest kwargs;
      OK (v :: vs)
  end.

Definition bind_call (ps : Parameters) (kwargs : list (string * Value))
  : result (list Value) :=
  match List.find (fun kv => negb (bool_decide (is_Some (assoc kv.1 ps)))) kwargs with
  | Some (k, _) => Raise (TypeError ("got an unexpected keyword argument " +:+ k))
  | None => bind_parameters ps kwargs
  end.

(** ** class SynpickDataset *)

Definition NUM_CLASSES : nat := 22.

(** [['object_{}'.format(i) for i in range(1, NUM_CLASSES)]] *)
Definition CLASSES : list string :=
  (fun i => "object_" +:+ pretty i) <$> seq 1 (NUM_CLASSES - 1).

Definition lower_ascii (c : ascii) : ascii :=
  let n := nat_of_ascii c in
  if (65 <=? n)%nat && (n <=? 90)%nat then ascii_of_nat (n + 32) else c.

(** [str.lower] (on ASCII letters) *)
Fixpoint lower (s : string) : string :=
  match s with
  | EmptyString => EmptyString
  | String c rest => String (lower_ascii c) (lower rest)
  end.

(** [list.index] *)
Fixpoint list_index (x : string) (l : list string) : result nat :=
  match l with
  | [] => Raise (ValueError (x +:+ " is not in list"))
  | y :: rest => if String.eqb x y then OK 0%nat else S <$> list_index x rest
  end.

Record SynpickDataset : Type := {
  image_ids : list string;
  mask_ids : list string;
  images_fps : list Path;
  masks_fps : list Path;
  class_values : list nat;
  augmentation : Value;
  preprocessing : Value
}.

Definition SynpickDataset_parameters : Parameters :=
  [ ("images_dir", None); ("masks_dir", None); ("classes", Some VNone);
    ("augmentation", Some VNone); ("preprocessing", Some VNone) ].

(** The list comprehension that fills [class_values]. *)
Fixpoint class_values_of (classes : list string) : result (list nat) :=
  match classes with
  | [] => OK []
  | cls :: rest =>
      i ← list_index (lower cls) CLASSES;
      vs ← class_values_of rest;
      OK ((i + 1)%nat :: vs)
  end.

(** [SynpickDataset.__init__] *)
Definition SynpickDataset_init (fs : FileSystem)
    (images_dir masks_dir classes augmentation preprocessing : Value)
  : result SynpickDataset :=
  idir ← as_path images_dir;
  ilist ← os_listdir fs idir;
  let image_ids := sorted ilist in
  mdir ← as_path masks_dir;
  mlist ← os_listdir fs mdir;
  let mask_ids := sorted mlist in
  let images_fps := os_path_join idir <$> image_ids in
  let masks_fps := os_path_join mdir <$> mask_ids in
  cs ← iterate classes;
  class_values ← class_values_of cs;
  OK {| image_ids := image_ids; mask_ids := mask_ids;
        images_fps := images_fps; masks_fps := masks_fps;
        class_values := class_values;
        augmentation := augmentation; preprocessing := preprocessing |}.

(** The call [SynpickDataset(k1=v1, ...)]. *)
Definition SynpickDataset_call (fs : FileSystem) (kwargs : list (string * Value))
  : result SynpickDataset :=
  bound ← bind_call SynpickDataset_parameters kwargs;
  match bound with
  | [images_dir; masks_dir; classes; augmentation; preprocessing] =>
      SynpickDataset_init fs images_dir masks_dir classes augmentation preprocessing
  | _ => Raise (TypeError "wrong number of arguments")
  end.

(** [SynpickDataset.__getitem__] *)
Definition SynpickDataset_getitem (fs : FileSystem) (self : SynpickDataset) (i : Z)
  : result (ndarray * ndarray) :=
  image_fp ← py_index (images_fps self) i;
  let image := cv2_imread fs image_fp IMREAD_COLOR in
  image ← cv2_cvtColor_BGR2RGB image;
  mask_fp ← py_index (masks_fps self) i;
  let mask := np_expand_dims_last (cv2_imread fs mask_fp IMREAD_GRAYSCALE) in
  '(image, mask) ← (if truthy (augmentation self)
                    then call_augmentation (augmentation self) image mask
                    else OK (image, mask));
  image ← to_torch image;
  mask ← to_torch mask;
  OK (image, mask).

(** [SynpickDataset.__len__] *)
Definition SynpickDataset_len (self : SynpickDataset) : nat := length (image_ids self).

End dataset.

(** * config.py *)

Module config.
Definition BATCH_SIZE : nat := 16.
Definition LEARNING_RATE : Qc := Q2Qc (1 # 10000).
Definition NUM_EPOCHS : nat := 20.
End config.

(** * main.py *)

Module main.
Import dataset.
Local Open Scope Qc_scope.

(** What a run does to the outside, in order. *)
Inductive Event : Type :=
| EvTrainStep (epoch batch_idx : nat) (lr : Qc)
| EvValidate (epoch : nat) (accuracy : Qc)
| EvSave (epoch : nat) (p : Path)
| EvVisualize
| EvDecay (epoch : nat)
| EvLoad (p : Path).

Record World : Type := { fs : FileSystem; events : list Event }.

(** The collaborators of [main] that are not part of these sources: the
    transforms the augmentation builders return, the number of batches
    the training loader yields, the validation accuracy [get_accuracy]
    reports after each epoch, and the clock. *)
Record Env : Type := {
  get_training_augmentation : Augmentation;
  get_validation_augmentation : Augmentation;
  len_train_loader : nat;
  get_accuracy : nat → Qc;
  timestamp : Z
}.

(** Computations that may raise and that act on the world. *)
Definition Run (A : Type) : Type := World → result A * World.

#[export] Instance Run_ret : MRet Run := fun A a w => (OK a, w).
#[export] Instance Run_bind : MBind Run := fun A B f r w =>
  match r w with
  | (OK a, w') => f a w'
  | (Raise e, w') => (Raise e, w')
  end.

Definition lift {A} (r : result A) : Run A := fun w => (r, w).

Definition emit (e : Event) : Run unit :=
  fun w => (OK tt, {| fs := fs w; events := events w ++ [e] |}).

(** [Path.mkdir(parents=True)]: the directory must not exist yet. *)
Definition mkdir (d : string) : Run unit :=
  fun w =>
    match fs w !! d with
    | Some _ => (Raise (FileExistsError d), w)
    | None => (OK tt, {| fs := <[d := ∅]> (fs w); events := events w |})
    end.

(** [torch.save(seg_model, path)] after [epoch]'s training. *)
Definition torch_save (epoch : nat) (p : Path) : Run unit :=
  fun w =>
    match fs w !! dir p with
    | None => (Raise (FileNotFoundError (dir p)), w)
    | Some entries =>
        (OK tt, {| fs := <[dir p := <[name p := Pickle epoch]> entries]> (fs w);
                   events := events w ++ [EvSave epoch p] |})
    end.

(** [torch.load(path)]: the epoch whose model the file holds. *)
Definition torch_load (p : Path) : Run nat :=
  fun w =>
    match lookup_file (fs w) p with
    | Some (Pickle epoch) => (OK epoch, {| fs := fs w; events := events w ++ [EvLoad p] |})
    | Some (Picture _) => (Raise (RuntimeError "Invalid magic number; corrupt file?"), w)
    | None => (Raise (FileNotFoundError (path_str p)), w)
    end.

(** [visualize(dataset, model)] *)
Definition visualize : Run unit := emit EvVisualize.

(** The loop variables of [main]: [max_accuracy] and
    [optimizer.param_groups[0]['lr']]. *)
Record Locals : Type := { max_accuracy : Qc; lr : Qc }.

(** The inner loop over the batches: one optimizer step each. *)
Fixpoint train_batches (i : nat) (rate : Qc) (batch_idxs : list nat) : Run unit :=
  match batch_idxs with
  | [] => mret tt
  | batch_idx :: rest =>
      _ ← emit (EvTrainStep i batch_idx rate);
      train_batches i rate rest
  end.

(** The body of [for i in range(0, NUM_EPOCHS)]. *)
Definition epoch (env : Env) (out_dir : string) (i : nat) (st : Locals) : Run Locals :=
  _ ← train_batches i (lr st) (seq 0 (len_train_loader env));
  let accuracy := get_accuracy env i in
  _ ← emit (EvValidate i accuracy);
  st ← (if decide (max_accuracy st < accuracy)
        then _ ← torch_save i (os_path_join out_dir "best_model.pth");
             mret {| max_accuracy := accuracy; lr := lr st |}
        else mret st);
  _ ← visualize;
  if decide (i = 25%nat)
  then _ ← emit (EvDecay i);
       mret {| max_accuracy := max_accuracy st; lr := lr st * Q2Qc (1 # 10) |}
  else mret st.

Fixpoint epochs (env : Env) (out_dir : string) (idxs : list nat) (st : Locals)
  : Run Locals :=
  match idxs with
  | [] => mret st
  | i :: rest => st' ← epoch env out_dir i st; epochs env out_dir rest st'
  end.

(** # TRAINING *)
Definition main_training (env : Env) (num_epochs : nat) (out_dir : string)
    (learning_rate : Qc) : Run Locals :=
  epochs env out_dir (seq 0 num_epochs) {| max_accuracy := 0; lr := learning_rate |}.

(** # DATA *)
Definition main_data (env : Env) (args : list string) (w : World)
  : result (SynpickDataset * SynpickDataset * string) :=
  data_dir ← index args 0;
  let train_dir := os_path_join data_dir "train" in
  let val_dir := os_path_join data_dir "val" in
  let test_dir := os_path_join data_dir "test" in
  train_data ← SynpickDataset_call (fs w)
    [ ("data_dir", VStr (path_str train_dir));
      ("augmentation", VCallable (get_training_augmentation env)) ];
  val_data ← SynpickDataset_call (fs w)
    [ ("data_dir", VStr (path_str val_dir));
      ("augmentation", VCallable (get_validation_augmentation env)) ];
  OK (train_data, val_data, path_str test_dir).

(** # MODEL and # ETC: the network, then the run directory. *)
Definition main_setup (env : Env) : Run string :=
  _ ← lift (seg_model.UNet_init 3 (Z.of_nat NUM_CLASSES) [64; 128; 256; 512]%Z);
  let out_dir := "out/run_" +:+ pretty (timestamp env) in
  _ ← mkdir out_dir;
  mret out_dir.

(** # TESTING *)
Definition main_testing (env : Env) (out_dir test_dir : string) : Run unit :=
  best_model ← torch_load (os_path_join out_dir "best_model.pth");
  test_data ← (fun w => (SynpickDataset_call (fs w)
                 [ ("data_dir", VStr test_dir);
                   ("augmentation", VCallable (get_validation_augmentation env)) ], w));
  visualize.

(** Everything after the data sets are built. *)
Definition main_run (env : Env) (num_epochs : nat) (learning_rate : Qc)
    (test_dir : string) : Run unit :=
  out_dir ← main_setup env;
  _ ← main_training env num_epochs out_dir learning_rate;
  main_testing env out_dir test_dir.

(** [def main(args)] *)
Definition main (env : Env) (args : list string) : Run unit :=
  '(train_data, val_data, test_dir) ← (fun w => (main_data env args w, w));
  main_run env config.NUM_EPOCHS config.LEARNING_RATE test_dir.

End main.

(** * vp_suite/utils/utils.py *)

Module utils.
Local Open Scope Qc_scope.

(** A tensor of reals: its size and its elements in storage order.  The
    elements are exact rationals, so a division by zero (which torch
    answers with [inf] or [nan]) is outside what this models. *)
Record Tensor : Type := { size : list nat; elems : list Qc }.

(** An operation applied to every element (broadcast with scalars). *)
Definition pointwise (f : Qc → Qc) (img : Tensor) : Tensor :=
  {| size := size img; elems := f <$> elems img |}.

(** [a, b = value_range] *)
Definition unpack2 (value_range : list Qc) : result (Qc * Qc) :=
  match value_range with
  | [a; b] => OK (a, b)
  | [] | [_] => Raise (ValueError "not enough values to unpack (expected 2)")
  | _ => Raise (ValueError "too many values to unpack (expected 2)")
  end.

(** [class ScaleToTest] *)
Module ScaleToTest.
Record t : Type := { m_min : Qc; m_max : Qc; t_min : Qc; t_max : Qc }.

Definition init (model_value_range test_value_range : list Qc) : result t :=
  '(m_min, m_max) ← unpack2 model_value_range;
  '(t_min, t_max) ← unpack2 test_value_range;
  OK {| m_min := m_min; m_max := m_max; t_min := t_min; t_max := t_max |}.

Definition forward (self : t) (img : Tensor) : Tensor :=
  let img := pointwise (fun x => (x - m_min self) / (m_max self - m_min self)) img in
  let img := pointwise (fun x => x * (t_max self - t_min self) + t_min self) img in
  img.
End ScaleToTest.

(** [class ScaleToModel] *)
Module ScaleToModel.
Record t : Type := { m_min : Qc; m_max : Qc; t_min : Qc; t_max : Qc }.

Definition init (model_value_range test_value_range : list Qc) : result t :=
  '(m_min, m_max) ← unpack2 model_value_range;
  '(t_min, t_max) ← unpack2 test_value_range;
  OK {| m_min := m_min; m_max := m_max; t_min := t_min; t_max := t_max |}.

Definition forward (self : t) (img : Tensor) : Tensor :=
  let img := pointwise (fun x => (x - t_min self) / (t_max self - t_min self)) img in
  let img := pointwise (fun x => x * (m_max self - m_min self) + m_min self) img in
  img.
End ScaleToModel.

(** ** Configurations *)

(** The values a configuration dictionary holds. *)
Inductive Value : Type :=
| VNone
| VBool (b : bool)
| VNum (q : Qc)
| VSeq (l : list Qc).

#[export] Instance Value_eq_dec : EqDecision Value.
Proof. solve_decision. Defined.

Abbreviation Config := (gmap string Value).

(** [cfg[key]] *)
Definition getitem (cfg : Config) (key : string) : result Value :=
  match cfg !! key with
  | Some v => OK v
  | None => Raise (KeyError key)
  end.

(** [list(v)] *)
Definition to_list (v : Value) : result (list Qc) :=
  match v with
  | VSeq l => OK l
  | _ => Raise (TypeError "object is not iterable")
  end.

(** [a, b, c = v] *)
Definition unpack3 (v : Value) : result (Qc * Qc * Qc) :=
  match v with
  | VSeq [a; b; c] => OK (a, b, c)
  | VSeq ([] | [_] | [_; _]) => Raise (ValueError "not enough values to unpack (expected 3)")
  | VSeq _ => Raise (ValueError "too many values to unpack (expected 3)")
  | _ => Raise (TypeError "cannot unpack non-iterable object")
  end.

Definition truthy (v : Value) : bool :=
  match v with
  | VNone => false
  | VBool b => b
  | VNum q => negb (bool_decide (q = 0))
  | VSeq l => negb (bool_decide (l = []))
  end.

(** A value as a number, where it is one ([True] is 1). *)
Definition as_number (v : Value) : option Qc :=
  match v with
  | VBool b => Some (if b then 1 else 0)
  | VNum q => Some q
  | _ => None
  end.

(** [a == b] *)
Definition value_eqb (a b : Value) : bool :=
  match as_number a, as_number b with
  | Some x, Some y => bool_decide (x = y)
  | None, None => bool_decide (a = b)
  | _, _ => false
  end.

(** [v < bound] *)
Definition value_ltb (v : Value) (bound : Qc) : result bool :=
  match as_number v with
  | Some x => OK (bool_decide (x < bound))
  | None => Raise (TypeError "'<' not supported between instances")
  end.

(** The attributes of the model object that the check reads. *)
Record Model : Type := {
  can_handle_actions : bool;
  desc : string;
  min_context_frames : Qc
}.

(** The adapter modules that end up in the two pipelines. *)
Inductive Transform : Type :=
| TScaleToModel (s : ScaleToModel.t)
| TScaleToTest (s : ScaleToTest.t)
| TResize (h w : Qc).

Definition is_ScaleToModel (tr : Transform) : bool :=
  match tr with TScaleToModel _ => true | _ => false end.

Definition is_ScaleToTest (tr : Transform) : bool :=
  match tr with TScaleToTest _ => true | _ => false end.

Definition Pipelines : Type := list Transform * list Transform.

Definition value_ranges_differ_msg : string := "ERROR: model and run value ranges differ".

(** [# value range] *)
Definition check_value_range (model_config run_config : Config) (strict_mode : bool)
    (pp : Pipelines) : result Pipelines :=
  mv ← getitem model_config "tensor_value_range";
  model_value_range ← to_list mv;
  tv ← getitem run_config "tensor_value_range";
  test_value_range ← to_list tv;
  if decide (model_value_range ≠ test_value_range)
  then if strict_mode
       then Raise (ValueError value_ranges_differ_msg)
       else stm ← ScaleToModel.init model_value_range test_value_range;
            stt ← ScaleToTest.init model_value_range test_value_range;
            OK (pp.1 ++ [TScaleToModel stm], pp.2 ++ [TScaleToTest stt])
  else OK pp.

(** [# action conditioning] *)
Definition check_actions (model_config run_config : Config) (model : Model)
  : result unit :=
  mdl_ac ← getitem model_config "use_actions";
  run_ac ← getitem run_config "use_actions";
  if can_handle_actions model
  then if truthy mdl_ac
       then if negb (truthy run_ac)
            then Raise (ValueError "ERROR: Action-conditioned model can't be invoked without using actions")
            else a ← getitem model_config "action_size";
                 b ← getitem run_config "action_size";
                 if value_eqb a b then OK tt
                 else Raise (AssertionError "ERROR: Action-conditioned model was trained with a different action size")
       else if truthy run_ac
            then Raise (ValueError "ERROR: Action-conditionable model was trained without using actions")
            else OK tt
  else OK tt.

(** [# img_shape] *)
Definition check_img_shape (model_config run_config : Config) (strict_mode : bool)
    (pp : Pipelines) : result Pipelines :=
  ms ← getitem model_config "img_shape";
  '(model_c, model_h, model_w) ← unpack3 ms;
  ts ← getitem run_config "img_shape";
  '(test_c, test_h, test_w) ← unpack3 ts;
  if decide (model_c ≠ test_c)
  then Raise (ValueError "ERROR: Test dataset provides images with a different number of channels")
  else if decide (model_h ≠ test_h ∨ model_w ≠ test_w)
  then if strict_mode
       then Raise (ValueError "ERROR: model and run img sizes differ")
       else OK (pp.1 ++ [TResize model_h model_w], pp.2 ++ [TResize test_h test_w])
  else OK pp.

(** [# context frames and pred. horizon]; this part writes to
    [run_config], and what it wrote stays when a later line raises. *)
Definition check_frames (model_config run_config : Config) (model : Model)
  : result unit * Config :=
  match getitem run_config "context_frames" with
  | Raise e => (Raise e, run_config)
  | OK cf =>
      let step1 : result Config :=
        if decide (cf = VNone)
        then v ← getitem model_config "context_frames";
             OK (<["context_frames" := v]> run_config)
        else below ← value_ltb cf (min_context_frames model);
             if (below : bool)
             then Raise (ValueError "ERROR: Model needs more context frames")
             else OK run_config in
      match step1 with
      | Raise e => (Raise e, run_config)
      | OK rc1 =>
          match getitem rc1 "pred_frames" with
          | Raise e => (Raise e, rc1)
          | OK pf =>
              if decide (pf = VNone)
              then match getitem model_config "pred_frames" with
                   | Raise e => (Raise e, rc1)
                   | OK v => (OK tt, <["pred_frames" := v]> rc1)
                   end
              else (OK tt, rc1)
          end
      end
  end.

(** [def check_model_compatibility(model_config, run_config, model,
    strict_mode=False, model_dir=None)]: the two pipelines, or the
    exception, together with [run_config] as the call leaves it. *)
Definition check_model_compatibility (model_config run_config : Config)
    (model : Model) (strict_mode : bool) : result Pipelines * Config :=
  let before_frames : result Pipelines :=
    pp ← check_value_range model_config run_config strict_mode ([], []);
    _ ← check_actions model_config run_config model;
    check_img_shape model_config run_config strict_mode pp in
  match before_frames with
  | Raise e => (Raise e, run_config)
  | OK pp =>
      match check_frames model_config run_config model with
      | (Raise e, rc) => (Raise e, rc)
      | (OK _, rc) => (OK pp, rc)
      end
  end.

(** [sum(l)] of a list of booleans: the number of [True]s. *)
Definition py_sum (l : list bool) : Z :=
  foldr (fun (b : bool) s => ((if b then 1 else 0) + s)%Z) 0%Z l.

(** [def most(l, factor=0.67)], the factor an exact rational. *)
Definition most (l : list bool) (factor : Qc) : bool :=
  bool_decide (factor * Qc_of_Z (Z.of_nat (length l)) ≤ Qc_of_Z (py_sum l)).


(** [def check_dataset_compatibility(model_config, dataset_config, model)];
    the two shapes are sequences of one kind. *)
Definition check_dataset_compatibility (model_config dataset_config : Config)
    (model : Model) : result unit :=
  ms ← getitem model_config "img_shape";
  ds ← getitem dataset_config "img_shape";
  if negb (value_eqb ms ds)
  then Raise (AssertionError "expected img shape of loaded model and dataset img_shape to be the same")
  else if can_handle_actions model
  then ac ← getitem model_config "action_conditional";
       if truthy ac
       then a ← getitem model_config "action_size";
            b ← getitem dataset_config "action_size";
            if value_eqb a b then OK tt
            else Raise (AssertionError "expected action size of loaded model and dataset to be the same")
       else OK tt
  else OK tt.

End utils.

(** * Properties of the segmentation network *)

Module seg_model_spec.
Import seg_model.
Local Open Scope Z_scope.

(** The shapes of the skip connections for an input of spatial size
    [(h, w)]: level by level, the width of the level at half the
    resolution of the level before. *)
Fixpoint pyramid (b : Z) (features : list Z) (h w : Z) : list Shape :=
  match features with
  | [] => []
  | f :: rest => NCHW b f h w :: pyramid b rest (h / 2) (w / 2)
  end.

(** The stages the decoder goes through when it starts from spatial size
    [(hx, wx)] and meets the skip connections [sks], deepest first. *)
Fixpoint up_stages (b : Z) (rev_features : list Z) (sks : list Shape) (hx wx : Z)
  : list Stage :=
  match rev_features, sks with
  | f :: rest, s :: sks' =>
      {| upsampled := NCHW b f (2 * hx) (2 * wx);
         skip := s;
         reconciled := NCHW b f (height s) (width s) |}
      :: up_stages b rest sks' (height s) (width s)
  | _, _ => []
  end.

(** The shape the decoder ends with. *)
Fixpoint up_final (b c : Z) (rev_features : list Z) (sks : list Shape) (hx wx : Z)
  : Shape :=
  match rev_features, sks with
  | f :: rest, s :: sks' => up_final b f rest sks' (height s) (width s)
  | _, _ => NCHW b c hx wx
  end.

(** Each level is twice as wide as the level before: what the channel
    counts written into [__init__] need in order to fit together. *)
Fixpoint widths_double (features : list Z) : Prop :=
  match features with
  | f :: (g :: _) as rest => g = f * 2 ∧ widths_double rest
  | _ => True
  end.

(** The same, read from the deepest level upwards, for a tensor of [c]
    channels entering the decoder. *)
Fixpoint chain (c : Z) (rev_features : list Z) : Prop :=
  match rev_features with
  | [] => True
  | f :: rest => c = f * 2 ∧ chain f rest
  end.

(** A feature list [__init__] accepts and whose layers fit together. *)
Definition valid_features (features : list Z) : Prop :=
  features ≠ [] ∧ Forall (fun f => 0 < f) features ∧ widths_double features.

(** The skip connection a stage is given fits the stage. *)
Definition fits (b : Z) (f : Z) (s : Shape) : Prop :=
  batch s = b ∧ channels s = f ∧ 2 <= height s ∧ 2 <= width s.

(** The stage went into the concatenation with the spatial size of its
    skip connection. *)
Definition reconciled_to_skip (s : Stage) : Prop :=
  height (reconciled s) = height (skip s) ∧ width (reconciled s) = width (skip s).

End seg_model_spec.

(** * Descriptions and examples for the data set *)

Module dataset_spec.
Import dataset.

(** What [__getitem__] does once it holds the two paths. *)
Definition read_pair (fs : FileSystem) (augmentation : Value) (image_fp mask_fp : Path)
  : result (ndarray * ndarray) :=
  image ← cv2_cvtColor_BGR2RGB (cv2_imread fs image_fp IMREAD_COLOR);
  let mask := np_expand_dims_last (cv2_imread fs mask_fp IMREAD_GRAYSCALE) in
  '(image, mask) ← (if truthy augmentation
                    then call_augmentation augmentation image mask
                    else OK (image, mask));
  image ← to_torch image;
  mask ← to_torch mask;
  OK (image, mask).

(** A 2 x 2 picture with the given grey levels. *)
Definition picture2x2 (g : list Z) : File :=
  Picture {| rows := 2; cols := 2;
             bgr := flat_map (fun v => [v; v; v]) g;
             gray := g |}.

(** Pictures and masks whose names agree. *)
Definition example_store : FileSystem :=
  {[ "images" := {[ "a.png" := picture2x2 [10; 20; 30; 40]%Z ]};
     "masks" := {[ "a.png" := picture2x2 [0; 1; 21; 200]%Z ]} ]}.

(** Pictures and masks whose listings differ in length and in names. *)
Definition mismatched_store : FileSystem :=
  {[ "images" := {[ "a.png" := picture2x2 [10; 20; 30; 40]%Z;
                    "b.png" := picture2x2 [50; 60; 70; 80]%Z ]};
     "masks" := {[ "b.png" := picture2x2 [1; 1; 2; 2]%Z;
                   "c.png" := picture2x2 [3; 3; 4; 4]%Z;
                   "d.png" := picture2x2 [5; 5; 6; 6]%Z ]} ]}.


(** The data set [__init__] builds over [example_store]. *)
Definition example_dataset : SynpickDataset :=
  {| image_ids := ["a.png"]; mask_ids := ["a.png"];
     images_fps := [os_path_join "images" "a.png"];
     masks_fps := [os_path_join "masks" "a.png"];
     class_values := [1]; augmentation := VNone; preprocessing := VNone |}.

Definition unexpected_data_dir : PyError :=
  TypeError "got an unexpected keyword argument data_dir".

Definition none_not_iterable : PyError :=
  TypeError "'NoneType' object is not iterable".

End dataset_spec.

(** * Descriptions and examples for the training loop *)

Module main_spec.
Import dataset main.
Local Open Scope Qc_scope.

(** [max_accuracy] before epoch [i]: the loop's running maximum. *)
Fixpoint best_so_far (acc : nat → Qc) (i : nat) : Qc :=
  match i with
  | O => 0
  | S k => if decide (best_so_far acc k < acc k) then acc k else best_so_far acc k
  end.

(** The epochs after which the checkpoint was written. *)
Definition saves (evs : list Event) : list nat :=
  omap (fun e => match e with EvSave i _ => Some i | _ => None end) evs.

(** The epochs after which the learning rate was scaled. *)
Definition decays (evs : list Event) : list nat :=
  omap (fun e => match e with EvDecay i => Some i | _ => None end) evs.

(** The optimizer steps: epoch, batch and the learning rate in force. *)
Definition train_steps (evs : list Event) : list (nat * nat * Qc) :=
  omap (fun e => match e with EvTrainStep i b l => Some (i, b, l) | _ => None end) evs.

Definition loads (evs : list Event) : list Path :=
  omap (fun e => match e with EvLoad p => Some p | _ => None end) evs.

(** The run directory [main] makes up. *)
Definition run_dir (env : Env) : string := "out/run_" +:+ pretty (timestamp env).

Definition checkpoint_path (out_dir : string) : Path := os_path_join out_dir "best_model.pth".

(** What one pass through the loop body does to the loop variables. *)
Definition epoch_locals (env : Env) (i : nat) (st : Locals) : Locals :=
  {| max_accuracy := if decide (max_accuracy st < get_accuracy env i)
                     then get_accuracy env i else max_accuracy st;
     lr := if decide (i = 25%nat) then lr st * Q2Qc (1 # 10) else lr st |}.

(** What it lets the outside see. *)
Definition epoch_events (env : Env) (out_dir : string) (i : nat) (st : Locals)
  : list Event :=
  ((fun b => EvTrainStep i b (lr st)) <$> seq 0 (len_train_loader env))
  ++ [EvValidate i (get_accuracy env i)]
  ++ (if decide (max_accuracy st < get_accuracy env i)
      then [EvSave i (checkpoint_path out_dir)] else [])
  ++ [EvVisualize]
  ++ (if decide (i = 25%nat) then [EvDecay i] else []).

Fixpoint run_locals (env : Env) (idxs : list nat) (st : Locals) : Locals :=
  match idxs with
  | [] => st
  | i :: rest => run_locals env rest (epoch_locals env i st)
  end.

Fixpoint run_events (env : Env) (out_dir : string) (idxs : list nat) (st : Locals)
  : list Event :=
  match idxs with
  | [] => []
  | i :: rest =>
      epoch_events env out_dir i st ++ run_events env out_dir rest (epoch_locals env i st)
  end.

(** The run directory after the loop: the checkpoint holds the model of
    the last epoch that saved, if any did. *)
Definition store_after (out_dir : string) (entries : gmap string File)
    (saved : list nat) (files : FileSystem) : FileSystem :=
  match last saved with
  | Some e => <[out_dir := <["best_model.pth" := Pickle e]> entries]> files
  | None => files
  end.

(** The learning rate in force during epoch [i] of a run that starts at
    [r]. *)
Definition rate_in_epoch (r : Qc) (i : nat) : Qc :=
  if decide (i ≤ 25)%nat then r else r * Q2Qc (1 # 10).


(** A run to try things on: the given validation accuracies (0 once the
    list is used up), [batches] batches per epoch, transforms that change
    nothing. *)
Definition example_env (accuracies : list Qc) (batches : nat) : Env :=
  {| get_training_augmentation := fun image mask => OK (image, mask);
     get_validation_augmentation := fun image mask => OK (image, mask);
     len_train_loader := batches;
     get_accuracy := fun i => nth i accuracies 0;
     timestamp := 0 |}.

(** A world in which the run directory has just been created. *)
Definition example_world (out_dir : string) : World :=
  {| fs := {[ out_dir := ∅ ]}; events := [] |}.

End main_spec.

(** * Descriptions and examples for the adapters *)

Module utils_spec.
Import utils.
Local Open Scope Qc_scope.

(** A model that cannot handle actions. *)
Definition example_model : Model :=
  {| can_handle_actions := false; desc := "example"; min_context_frames := 1 |}.

(** A configuration with the given value range and 3 x 64 x 64 images. *)
Definition example_config (value_range : list Qc) : Config :=
  {[ "tensor_value_range" := VSeq value_range;
     "use_actions" := VBool false;
     "img_shape" := VSeq [Q2Qc 3; Q2Qc 64; Q2Qc 64];
     "context_frames" := VNum (Q2Qc 4);
     "pred_frames" := VNum (Q2Qc 6) ]}.

Definition example_tensor : Tensor :=
  {| size := [2; 2]%nat; elems := [Q2Qc 0; Q2Qc (1 # 2); Q2Qc 1; Q2Qc (1 # 4)] |}.

(** A result that is not the value-range error. *)
Definition clean {A} (r : result A) : Prop :=
  r ≠ Raise (ValueError value_ranges_differ_msg).

End utils_spec.

(** * Further examples *)

Module dataset_examples.
Import dataset dataset_spec.

(** [example_store] after its masks have been removed. *)
Definition images_only_store : FileSystem :=
  {[ "images" := {[ "a.png" := picture2x2 [10; 20; 30; 40]%Z ]}; "masks" := ∅ ]}.

End dataset_examples.

Module utils_examples.
Import utils utils_spec.
Local Open Scope Qc_scope.

(** A run configuration with values in [0, 1] and 3 x 32 x 48 images. *)
Definition resized_config : Config :=
  <["img_shape" := VSeq [Q2Qc 3; Q2Qc 32; Q2Qc 48]]> (example_config [Q2Qc 0; Q2Qc 1]).

(** The pipelines between a model on [-1, 1] and 64 x 64 images and
    [resized_config]. *)
Definition resized_pipelines : Pipelines :=
  ([TScaleToModel {| ScaleToModel.m_min := Q2Qc (-1); ScaleToModel.m_max := Q2Qc 1;
                     ScaleToModel.t_min := Q2Qc 0; ScaleToModel.t_max := Q2Qc 1 |};
    TResize (Q2Qc 64) (Q2Qc 64)],
   [TScaleToTest {| ScaleToTest.m_min := Q2Qc (-1); ScaleToTest.m_max := Q2Qc 1;
                    ScaleToTest.t_min := Q2Qc 0; ScaleToTest.t_max := Q2Qc 1 |};
    TResize (Q2Qc 32) (Q2Qc 48)]).

(** A model that handles actions. *)
Definition action_model : Model :=
  {| can_handle_actions := true; desc := "action"; min_context_frames := 1 |}.

(** A configuration that uses actions of size 5. *)
Definition action_config : Config :=
  <["use_actions" := VBool true]>
    (<["action_size" := VNum (Q2Qc 5)]> (example_config [Q2Qc 0; Q2Qc 1])).

(** A run configuration that leaves both frame counts open. *)
Definition open_config : Config :=
  <["context_frames" := VNone]>
    (<["pred_frames" := VNone]> (example_config [Q2Qc 0; Q2Qc 1])).

(** A run configuration with the context frames open and no prediction
    horizon at all. *)
Definition half_open_config : Config :=
  <["context_frames" := VNone]>
    (delete "pred_frames" (example_config [Q2Qc 0; Q2Qc 1])).


End utils_examples.

(** * Fallible computations *)

Module result_facts.

Lemma bind_OK {A B} (a : A) (f : A → result B) : (OK a ≫= f) = f a.
Proof. reflexivity. Qed.

Lemma bind_inv {A B} (r : result A) (f : A → result B) b :
  r ≫= f = OK b → ∃ a, r = OK a ∧ f a = OK b.
Proof. destruct r as [a|e]; [by exists a|done]. Qed.

End result_facts.

(** * The segmentation network: shapes *)

Module seg_model_facts.
Import seg_model seg_model_spec result_facts.
Local Open Scope Z_scope.

Lemma window_same n : window_out n 3 1 1 = n.
Proof. unfold window_out. rewrite Z.div_1_r. lia. Qed.

Lemma window_half n : window_out n 2 2 0 = n / 2.
Proof.
  unfold window_out.
  replace (n + 2 * 0 - (2 - 1) - 1) with (n + (-1) * 2) by lia.
  rewrite Z.div_add by lia. lia.
Qed.

Lemma transposed_double n : transposed_out n 2 2 = 2 * n.
Proof. unfold transposed_out. lia. Qed.

Lemma pointwise_conv tr cin cout b h w :
  1 <= h → 1 <= w →
  Layer_forward tr (Conv2d cin cout 3 1 1) (NCHW b cin h w) = OK (NCHW b cout h w).
Proof.
  intros Hh Hw. simpl.
  destruct (decide (cin ≠ cin)) as [Hne|_]; [congruence|].
  destruct (decide (h + 2 * 1 < 3 ∨ w + 2 * 1 < 3)) as [Hs|_]; [lia|].
  by rewrite !window_same.
Qed.

Lemma batch_norm_ok tr c b h w :
  tr = false ∨ b * h * w ≠ 1 →
  Layer_forward tr (BatchNorm2d c) (NCHW b c h w) = OK (NCHW b c h w).
Proof.
  intros Hbn. simpl.
  destruct (decide (c ≠ c)) as [Hne|_]; [congruence|].
  destruct Hbn as [->|Hbn]; [done|].
  rewrite bool_decide_eq_false_2 by done. by rewrite andb_false_r.
Qed.

(** A DoubleConv keeps the spatial size and sets the channel count. *)
Lemma DoubleConv_forward_shape tr cin cout b h w :
  1 <= h → 1 <= w → tr = false ∨ b * h * w ≠ 1 →
  DoubleConv_forward tr (DoubleConv_init cin cout) (NCHW b cin h w)
  = OK (NCHW b cout h w).
Proof.
  intros Hh Hw Hbn. unfold DoubleConv_forward, DoubleConv_init. cbn [conv Sequential_forward].
  rewrite pointwise_conv, bind_OK by done.
  rewrite batch_norm_ok, bind_OK by done.
  cbn [Layer_forward]. rewrite bind_OK.
  rewrite pointwise_conv, bind_OK by done.
  rewrite batch_norm_ok, bind_OK by done.
  reflexivity.
Qed.

(** Pooling halves the spatial size, rounding down. *)
Lemma pool_shape tr b c h w :
  2 <= h → 2 <= w →
  Layer_forward tr (MaxPool2d 2 2) (NCHW b c h w) = OK (NCHW b c (h / 2) (w / 2)).
Proof.
  intros Hh Hw. simpl. rewrite !window_half.
  destruct (decide (h / 2 < 1 ∨ w / 2 < 1)) as [Hs|_]; [|done].
  assert (1 <= h / 2) by (apply Z.div_le_lower_bound; lia).
  assert (1 <= w / 2) by (apply Z.div_le_lower_bound; lia).
  lia.
Qed.

(** Pooling a single row or column is rejected. *)
Lemma pool_too_small tr b c h w :
  h < 2 ∨ w < 2 → raises (Layer_forward tr (MaxPool2d 2 2) (NCHW b c h w)).
Proof.
  intros Hs. simpl. rewrite !window_half.
  destruct (decide (h / 2 < 1 ∨ w / 2 < 1)) as [_|Hn]; [done|].
  exfalso. apply Hn. destruct Hs; [left|right]; apply Z.div_lt_upper_bound; lia.
Qed.

Lemma up_conv_shape tr f b h w :
  1 <= h → 1 <= w →
  Layer_forward tr (ConvTranspose2d (f * 2) f 2 2) (NCHW b (f * 2) h w)
  = OK (NCHW b f (2 * h) (2 * w)).
Proof.
  intros Hh Hw. simpl.
  destruct (decide (f * 2 ≠ f * 2)) as [Hne|_]; [congruence|].
  destruct (decide (h < 1 ∨ w < 1)) as [Hs|_]; [lia|].
  by rewrite !transposed_double.
Qed.


Lemma pow2_succ (n : nat) : 2 ^ Z.of_nat (S n) = 2 * 2 ^ Z.of_nat n.
Proof. rewrite Nat2Z.inj_succ, Z.pow_succ_r by lia. done. Qed.

Lemma pow2_pos (n : nat) : 0 < 2 ^ Z.of_nat n.
Proof. apply Z.pow_pos_nonneg; lia. Qed.

Lemma half_bound (n : nat) h : 2 ^ Z.of_nat (S n) <= h → 2 ^ Z.of_nat n <= h / 2 ∧ 2 <= h.
Proof.
  rewrite pow2_succ. intros Hh. pose proof (pow2_pos n). split; [|lia].
  apply Z.div_le_lower_bound; lia.
Qed.

Lemma half_div (n : nat) h : h / 2 / 2 ^ Z.of_nat n = h / 2 ^ Z.of_nat (S n).
Proof.
  pose proof (pow2_pos n). rewrite pow2_succ, Z.div_div by lia. done.
Qed.

Lemma last_default_cons (f : Z) rest c :
  default c (last (f :: rest)) = default f (last rest).
Proof.
  destruct rest as [|g rest]; [done|]. rewrite last_cons_cons.
  destruct (last (g :: rest)) eqn:E; [done|]. by apply last_None in E.
Qed.

(** The encoder: every level records a skip connection of its width at
    its resolution and hands on half the resolution. *)
Lemma down_loop_shape m b fs : ∀ cin h w sk,
  pool m = MaxPool2d 2 2 →
  0 < b → 2 ^ Z.of_nat (length fs) <= h → 2 ^ Z.of_nat (length fs) <= w →
  down_loop m (make_downs cin fs) (NCHW b cin h w) sk
  = OK (NCHW b (default cin (last fs)) (h / 2 ^ Z.of_nat (length fs))
                                      (w / 2 ^ Z.of_nat (length fs)),
        sk ++ pyramid b fs h w).
Proof.
  induction fs as [|f rest IH]; intros cin h w sk Hpool Hb Hh Hw.
  - simpl. rewrite !Z.div_1_r, app_nil_r. done.
  - apply half_bound in Hh as [Hh Hh2]. apply half_bound in Hw as [Hw Hw2].
    cbn [make_downs down_loop].
    rewrite DoubleConv_forward_shape, bind_OK by (try lia; right; nia).
    rewrite Hpool, pool_shape, bind_OK by done.
    rewrite IH by done.
    rewrite !half_div, last_default_cons. cbn [pyramid length].
    by rewrite <- app_assoc.
Qed.

Lemma resize_to (x : Shape) h w :
  1 <= h → 1 <= w → TF_resize x (h, w) = OK (NCHW (batch x) (channels x) h w).
Proof.
  intros Hh Hw. unfold TF_resize. simpl.
  destruct (decide (h < 1 ∨ w < 1)); [lia|done].
Qed.

Lemma index_middle {A} (l1 l2 : list A) x n :
  n = length l1 → index (l1 ++ x :: l2) n = OK x.
Proof. intros ->. unfold index. by rewrite list_lookup_middle. Qed.

(** One decoder stage: whatever the upsampled size, the stage leaves a
    tensor with the width of the level and the spatial size of the skip
    connection. *)
Lemma up_loop_shape m b : 0 < b → ∀ rs sks pre_ups pre_sk c hx wx log,
  ups m = pre_ups ++ make_ups rs →
  length pre_ups = (2 * length pre_sk)%nat →
  Forall2 (fits b) rs sks →
  chain c rs → 1 <= hx → 1 <= wx →
  up_loop m (pre_sk ++ sks)
    (map (fun j => 2 * j)%nat (seq (length pre_sk) (length rs)))
    (NCHW b c hx wx) log
  = OK (up_final b c rs sks hx wx, log ++ up_stages b rs sks hx wx).
Proof.
  intros Hb rs. induction rs as [|f rs IH];
    intros sks pre_ups pre_sk c hx wx log Hups Hlen Hfits Hchain Hhx Hwx.
  - simpl. by rewrite app_nil_r.
  - inversion Hfits as [|f' s rs' sks' Hs Hrest]; subst.
    destruct Hchain as [-> Hchain].
    destruct s as [sb sc sh sw]. destruct Hs as (Hsb & Hsc & Hsh & Hsw).
    simpl in Hsb, Hsc, Hsh, Hsw. subst sb sc.
    cbn [length seq map up_loop make_ups] in *.
    rewrite Hups.
    rewrite (index_middle pre_ups _ _ (2 * length pre_sk)%nat) by lia. rewrite bind_OK.
    cbn [Module_forward]. rewrite up_conv_shape, bind_OK by done.
    replace (2 * length pre_sk / 2)%nat with (length pre_sk)
      by (rewrite Nat.mul_comm, Nat.div_mul; lia).
    rewrite (index_middle pre_sk _ _ (length pre_sk)) by done. rewrite bind_OK.
    assert (Hrec : (if decide (NCHW b f (2 * hx) (2 * wx) ≠ NCHW b f sh sw)
                    then TF_resize (NCHW b f (2 * hx) (2 * wx)) (sh, sw)
                    else OK (NCHW b f (2 * hx) (2 * wx))) = OK (NCHW b f sh sw)).
    { destruct (decide (NCHW b f (2 * hx) (2 * wx) ≠ NCHW b f sh sw)) as [Hne|He].
      - rewrite resize_to by (done || lia). done.
      - apply dec_stable in He. by rewrite He. }
    cbn [height width]. rewrite Hrec, bind_OK.
    unfold torch_cat1. cbn [batch height width channels].
    destruct (decide (b = b ∧ sh = sh ∧ sw = sw)) as [_|Hn]; [|by destruct Hn].
    rewrite bind_OK. replace (f + f) with (f * 2) by lia.
    replace (pre_ups ++ Single (ConvTranspose2d (f * 2) f 2 2)
               :: Double (DoubleConv_init (f * 2) f) :: make_ups rs)
      with ((pre_ups ++ [Single (ConvTranspose2d (f * 2) f 2 2)])
               ++ Double (DoubleConv_init (f * 2) f) :: make_ups rs)
      by (by rewrite <- app_assoc).
    rewrite index_middle by (rewrite length_app; simpl; lia).
    rewrite bind_OK. cbn [Module_forward].
    rewrite DoubleConv_forward_shape, bind_OK by (try lia; right; nia).
    set (s := NCHW b f sh sw).
    set (X := Single (ConvTranspose2d (f * 2) f 2 2)) in *.
    set (Y := Double (DoubleConv_init (f * 2) f)) in *.
    replace (pre_sk ++ s :: sks') with ((pre_sk ++ [s]) ++ sks')
      by (by rewrite <- app_assoc).
    replace (S (length pre_sk)) with (length (pre_sk ++ [s]))
      by (rewrite length_app; simpl; lia).
    rewrite (IH sks' ((pre_ups ++ [X]) ++ [Y]) (pre_sk ++ [s]) f sh sw); try done; try lia.
    + cbn [up_final up_stages]. by rewrite <- app_assoc.
    + by rewrite Hups, <- !app_assoc.
    + rewrite !length_app. simpl. lia.
Qed.

Lemma py_index_last {A} (l : list A) x : last l = Some x → py_index l (-1) = OK x.
Proof.
  intros Hl. unfold py_index.
  destruct (decide (0 <= -1)) as [?|_]; [lia|].
  assert (length l ≠ 0%nat) by (destruct l; [done|simpl; lia]).
  destruct (decide (- Z.of_nat (length l) <= -1)) as [_|?]; [|lia].
  unfold index. rewrite last_lookup in Hl.
  replace (Z.to_nat (Z.of_nat (length l) + -1)) with (pred (length l)) by lia.
  by rewrite Hl.
Qed.

Lemma py_index_first {A} (l : list A) x : head l = Some x → py_index l 0 = OK x.
Proof.
  intros Hl. unfold py_index. destruct (decide (0 <= 0)) as [_|?]; [|lia].
  unfold index. simpl. destruct l; simplify_eq/=. done.
Qed.

(** What [__init__] builds from a non-empty feature list. *)
Lemma UNet_init_fields cin K fs f0 fl :
  head fs = Some f0 → last fs = Some fl →
  UNet_init cin K fs
  = OK {| downs := make_downs cin fs;
          ups := make_ups (reverse fs);
          pool := MaxPool2d 2 2;
          bottleneck := DoubleConv_init fl (fl * 2);
          final_conv := Conv2d f0 K 1 1 0;
          training := true |}.
Proof.
  intros Hh Hl. unfold UNet_init.
  rewrite (py_index_last _ _ Hl), bind_OK, (py_index_first _ _ Hh), bind_OK. done.
Qed.

Lemma UNet_init_empty cin K : UNet_init cin K [] = Raise (IndexError "list index out of range").
Proof. reflexivity. Qed.

Lemma pyramid_length b fs : ∀ h w, length (pyramid b fs h w) = length fs.
Proof. induction fs as [|f rest IH]; intros h w; simpl; [done|]. by rewrite IH. Qed.

Lemma pyramid_fits b fs : ∀ h w,
  2 ^ Z.of_nat (length fs) <= h → 2 ^ Z.of_nat (length fs) <= w →
  Forall2 (fits b) fs (pyramid b fs h w).
Proof.
  induction fs as [|f rest IH]; intros h w Hh Hw; simpl; [constructor|].
  apply half_bound in Hh as [Hh Hh2]. apply half_bound in Hw as [Hw Hw2].
  constructor; [done|]. by apply IH.
Qed.

Lemma chain_app c l1 : ∀ l2,
  chain c (l1 ++ l2) ↔ chain c l1 ∧ chain (default c (last l1)) l2.
Proof.
  revert c. induction l1 as [|f l1 IH]; intros c l2; simpl; [tauto|].
  rewrite IH, last_default_cons. tauto.
Qed.

Lemma widths_double_chain fs : ∀ fl,
  widths_double fs → last fs = Some fl → chain (fl * 2) (reverse fs).
Proof.
  induction fs as [|f rest IH]; intros fl Hd Hl; [done|].
  rewrite reverse_cons. destruct rest as [|g rest].
  - simpl in Hl. simplify_eq. simpl. done.
  - destruct Hd as [Hg Hd]. rewrite last_cons_cons in Hl.
    apply chain_app. split; [by apply IH|].
    rewrite last_reverse. simpl. done.
Qed.

Lemma up_final_snoc b rs : ∀ sks c hx wx f s,
  length rs = length sks →
  up_final b c (rs ++ [f]) (sks ++ [s]) hx wx = NCHW b f (height s) (width s).
Proof.
  induction rs as [|r rs IH]; intros [|k sks] c hx wx f s Hlen; simplify_eq/=; [done|].
  by apply IH.
Qed.

Lemma make_ups_length rs : length (make_ups rs) = (2 * length rs)%nat.
Proof. induction rs as [|f rs IH]; simpl; [done|]. rewrite IH. lia. Qed.

Lemma div2_odd n : Nat.div2 (2 * n + 1) = n.
Proof.
  induction n as [|n IH]; [done|].
  replace (2 * S n + 1)%nat with (S (S (2 * n + 1))) by lia. simpl in *. by rewrite IH.
Qed.

Lemma range_step2_ups rs :
  range_step2 (length (make_ups rs)) = map (fun j => 2 * j)%nat (seq 0 (length rs)).
Proof. unfold range_step2. by rewrite make_ups_length, div2_odd. Qed.

Lemma head_projection tr f0 K b h w :
  1 <= h → 1 <= w →
  Layer_forward tr (Conv2d f0 K 1 1 0) (NCHW b f0 h w) = OK (NCHW b K h w).
Proof.
  intros Hh Hw. simpl.
  destruct (decide (f0 ≠ f0)) as [?|_]; [done|].
  destruct (decide (h + 2 * 0 < 1 ∨ w + 2 * 0 < 1)) as [?|_]; [lia|].
  unfold window_out. rewrite !Z.div_1_r. do 2 f_equal; lia.
Qed.

(** The whole forward pass, for any depth: when the input is large
    enough to be pooled once per level, the output has the spatial size
    of the input and [K] channels, and the decoder went through the
    stages [up_stages]. *)
Lemma forward_log_shape fs K b h w tr m :
  valid_features fs → 0 < b →
  2 ^ Z.of_nat (length fs) <= h → 2 ^ Z.of_nat (length fs) <= w →
  tr = false ∨ b * (h / 2 ^ Z.of_nat (length fs)) * (w / 2 ^ Z.of_nat (length fs)) ≠ 1 →
  UNet_init 3 K fs = OK m →
  forward_log (set_training tr m) (NCHW b 3 h w)
  = OK (NCHW b K h w,
        up_stages b (reverse fs) (reverse (pyramid b fs h w))
          (h / 2 ^ Z.of_nat (length fs)) (w / 2 ^ Z.of_nat (length fs))).
Proof.
  intros (Hne & Hpos & Hd) Hb Hh Hw Hbn Hinit.
  destruct (head fs) as [f0|] eqn:Hhead; [|by destruct fs].
  destruct (last fs) as [fl|] eqn:Hlast; [|by apply last_None in Hlast].
  rewrite (UNet_init_fields _ _ _ _ _ Hhead Hlast) in Hinit. simplify_eq.
  pose proof (pow2_pos (length fs)) as Hn.
  assert (Hhb : 1 <= h / 2 ^ Z.of_nat (length fs)) by (apply Z.div_le_lower_bound; lia).
  assert (Hwb : 1 <= w / 2 ^ Z.of_nat (length fs)) by (apply Z.div_le_lower_bound; lia).
  unfold forward_log, set_training. cbn [downs ups pool bottleneck final_conv training].
  rewrite down_loop_shape by done. rewrite bind_OK, Hlast. cbn [default app].
  rewrite DoubleConv_forward_shape, bind_OK by done.
  rewrite range_step2_ups, length_reverse.
  pose proof (up_loop_shape
    {| downs := make_downs 3 fs; ups := make_ups (reverse fs); pool := MaxPool2d 2 2;
       bottleneck := DoubleConv_init fl (fl * 2); final_conv := Conv2d f0 K 1 1 0;
       training := tr |} b Hb (reverse fs) (reverse (pyramid b fs h w)) [] []
    (fl * 2) (h / 2 ^ Z.of_nat (length fs)) (w / 2 ^ Z.of_nat (length fs)) []) as Hup.
  rewrite length_reverse in Hup. cbn [app length] in Hup.
  rewrite Hup; try done.
  - rewrite bind_OK.
    destruct fs as [|f rest]; [done|]. simpl in Hhead. simplify_eq.
    cbn [pyramid]. rewrite !reverse_cons.
    rewrite up_final_snoc by (by rewrite !length_reverse, pyramid_length).
    cbn [height width]. apply half_bound in Hh as [_ Hh]. apply half_bound in Hw as [_ Hw].
    rewrite head_projection by lia. done.
  - apply Forall2_reverse. by apply pyramid_fits.
  - by apply widths_double_chain.
Qed.

Lemma forward_of_log m x y log : forward_log m x = OK (y, log) → forward m x = OK y.
Proof. unfold forward. by intros ->. Qed.

Lemma divide_16_of_halves h :
  2 * (h / 16) = h / 2 / 2 / 2 → 2 * (h / 2 / 2 / 2) = h / 2 / 2 →
  2 * (h / 2 / 2) = h / 2 → 2 * (h / 2) = h → (16 | h).
Proof. intros H1 H2 H3 H4. exists (h / 16). lia. Qed.

(** C4 (amended).  For every UNet whose feature widths double from level
    to level and every non-empty input batch [(b, 3, H, W)] with [H] and
    [W] positive multiples of [2 ^ depth], the forward pass returns a
    tensor of shape [(b, K, H, W)], provided the network is in evaluation
    mode or the bottleneck sees more than one value per channel. *)
Theorem UNet_forward_divisible fs K b h w tr m :
  valid_features fs → 0 < K → 0 < b → 0 < h → 0 < w →
  (2 ^ Z.of_nat (length fs) | h) → (2 ^ Z.of_nat (length fs) | w) →
  tr = false ∨ b * (h / 2 ^ Z.of_nat (length fs)) * (w / 2 ^ Z.of_nat (length fs)) ≠ 1 →
  UNet_init 3 K fs = OK m →
  forward (set_training tr m) (NCHW b 3 h w) = OK (NCHW b K h w).
Proof.
  intros Hfs HK Hb Hh Hw Hdh Hdw Hbn Hinit.
  eapply forward_of_log, forward_log_shape; try done.
  - apply Z.divide_pos_le; done.
  - apply Z.divide_pos_le; done.
Qed.

Lemma UNet_forward_divisible_witness :
  ∃ m, UNet_init 3 22 [64; 128; 256; 512] = OK m ∧ training m = true ∧
       forward m (NCHW 1 3 256 256) = OK (NCHW 1 22 256 256).
Proof.
  eexists. split; [reflexivity|]. split; [reflexivity|].
  match goal with
  | |- forward ?m _ = _ =>
      apply (UNet_forward_divisible [64; 128; 256; 512] 22 1 256 256 true m)
  end.
  - split; [done|]. split; [repeat constructor; lia|]. simpl. lia.
  - lia.
  - lia.
  - lia.
  - lia.
  - by exists 16.
  - by exists 16.
  - right. by vm_compute.
  - reflexivity.
Defined.

(** C4 as stated fails: a fresh network is in training mode, and on a
    16 x 16 input of batch size 1 its bottleneck normalisation is given
    a single value per channel. *)
Lemma UNet_forward_divisible_counterexample :
  ∃ m, UNet_init 3 22 [64; 128; 256; 512] = OK m ∧ training m = true ∧
       (2 ^ 4 | 16) ∧
       forward m (NCHW 1 3 16 16)
       = Raise (ValueError "Expected more than 1 value per channel when training") ∧
       forward m (NCHW 1 3 16 16) ≠ OK (NCHW 1 22 16 16).
Proof.
  eexists. split; [reflexivity|]. split; [reflexivity|].
  split; [by exists 1|]. split; [by vm_compute|]. by vm_compute.
Qed.

(** C1 (amended).  For every UNet of encoder depth 4 whose feature
    widths double from level to level and every non-empty input batch
    [(b, 3, H, W)] with [H >= 16] and [W >= 16] that are not both
    divisible by 16 (and, in training mode, more than one value per
    channel at the bottleneck): the forward pass returns shape
    [(b, K, H, W)]; each of the four decoder stages enters its
    concatenation with exactly the spatial size of its skip connection;
    and at least one stage had to be resized to get there. *)
Theorem UNet_forward_reconciles fs K b h w tr m :
  valid_features fs → length fs = 4%nat → 0 < K → 0 < b →
  16 <= h → 16 <= w → ¬ ((16 | h) ∧ (16 | w)) →
  tr = false ∨ b * (h / 16) * (w / 16) ≠ 1 →
  UNet_init 3 K fs = OK m →
  ∃ log,
    forward_log (set_training tr m) (NCHW b 3 h w) = OK (NCHW b K h w, log) ∧
    forward (set_training tr m) (NCHW b 3 h w) = OK (NCHW b K h w) ∧
    length log = 4%nat ∧
    Forall reconciled_to_skip log ∧
    Exists resized log.
Proof.
  intros Hfs Hlen HK Hb Hh Hw Hnd Hbn Hinit.
  pose proof (forward_log_shape fs K b h w tr m Hfs Hb) as Hlog.
  rewrite Hlen in Hlog. change (2 ^ Z.of_nat 4) with 16 in Hlog.
  specialize (Hlog Hh Hw Hbn Hinit).
  eexists. split; [exact Hlog|]. split; [by eapply forward_of_log|].
  destruct fs as [|f1 [|f2 [|f3 [|f4 [|? ?]]]]]; simplify_eq/=.
  split; [done|]. split.
  - repeat constructor.
  - match goal with |- Exists _ ?l => destruct (decide (Exists resized l)) as [|Hn]; [done|] end.
    exfalso. apply Hnd.
    rewrite <- Forall_Exists_neg in Hn.
    repeat match goal with H : Forall _ (_ :: _) |- _ => apply Forall_cons in H as [? H] end.
    repeat match goal with H : ¬ resized _ |- _ =>
      apply dec_stable in H; simpl in H; injection H as ? ? end.
    split; by apply divide_16_of_halves.
Qed.

Lemma UNet_forward_reconciles_witness :
  ∃ m log, UNet_init 3 22 [64; 128; 256; 512] = OK m ∧ training m = true ∧
    ¬ ((16 | 93) ∧ (16 | 124)) ∧
    forward_log m (NCHW 1 3 93 124) = OK (NCHW 1 22 93 124, log) ∧
    forward m (NCHW 1 3 93 124) = OK (NCHW 1 22 93 124) ∧
    length log = 4%nat ∧ Forall reconciled_to_skip log ∧ Exists resized log.
Proof.
  assert (Hnd : ¬ ((16 | 93) ∧ (16 | 124))).
  { intros [[k Hk] _]. lia. }
  eexists.
  match goal with
  | |- ∃ log, UNet_init _ _ _ = OK ?m ∧ _ =>
      destruct (UNet_forward_reconciles [64; 128; 256; 512] 22 1 93 124 true m)
        as (log & H1 & H2 & H3 & H4 & H5)
  end.
  - split; [done|]. split; [repeat constructor; lia|]. simpl. lia.
  - reflexivity.
  - lia.
  - lia.
  - lia.
  - lia.
  - exact Hnd.
  - right. by vm_compute.
  - reflexivity.
  - exists log. split; [reflexivity|]. split; [reflexivity|]. split; [exact Hnd|].
    split; [exact H1|]. split; [exact H2|]. split; [exact H3|]. split; [exact H4|exact H5].
Defined.

(** C1 as stated fails: an 8 x 8 input is not divisible by 16, and its
    fourth pooling is given a single row and column. *)
Lemma UNet_forward_reconciles_counterexample :
  ∃ m, UNet_init 3 22 [64; 128; 256; 512] = OK m ∧
    ¬ ((16 | 8) ∧ (16 | 8)) ∧
    forward m (NCHW 2 3 8 8) = Raise (RuntimeError "Output size is too small") ∧
    forward (set_training false m) (NCHW 2 3 8 8)
      = Raise (RuntimeError "Output size is too small") ∧
    forward m (NCHW 2 3 8 8) ≠ OK (NCHW 2 22 8 8).
Proof.
  eexists. split; [reflexivity|].
  split; [intros [[k Hk] _]; lia|].
  split; [by vm_compute|]. split; by vm_compute.
Qed.

End seg_model_facts.

(** * The data set *)

Module dataset_facts.
Import dataset dataset_spec result_facts.

(** [to_torch] gives a float tensor of rank 3, channel first. *)
Lemma to_torch_inv x t :
  to_torch x = OK t →
  ∃ h w c, shape x = [h; w; c] ∧ shape t = [c; h; w] ∧ dt t = float32 ∧
    data t = flat_map (fun k =>
               flat_map (fun i =>
                 map (fun j => nth ((i * w + j) * c + k) (data x) 0%Z) (seq 0 w))
                 (seq 0 h))
               (seq 0 c).
Proof.
  unfold to_torch. intros Ht. apply bind_inv in Ht as (y & Hy & Ht).
  unfold transpose_201 in Hy.
  destruct (shape x) as [|h [|w [|c [|? ?]]]]; simplify_eq.
  unfold astype_float32 in Ht. simpl in Ht.
  destruct (dt x); simplify_eq; by exists h, w, c.
Qed.

Lemma row_of_array (d : list Z) a w :
  a + w ≤ length d →
  map (fun j => nth (a + j) d 0%Z) (seq 0 w) = take w (drop a d).
Proof.
  induction w as [|w IH]; intros Hlen; [done|].
  rewrite seq_S, map_app, IH by lia. simpl.
  destruct (lookup_lt_is_Some_2 d (a + w)) as [x Hx]; [lia|].
  rewrite (take_S_r _ _ x) by (by rewrite lookup_drop).
  by rewrite nth_lookup, Hx.
Qed.

Lemma rows_of_array (d : list Z) w h :
  h * w ≤ length d →
  flat_map (fun i => map (fun j => nth ((i * w + j) * 1 + 0) d 0%Z) (seq 0 w)) (seq 0 h)
  = take (h * w) d.
Proof.
  induction h as [|h IH]; intros Hlen; [done|].
  rewrite seq_S, flat_map_app, IH by lia. simpl. rewrite app_nil_r.
  rewrite (map_ext _ (fun j => nth (h * w + j) d 0%Z))
    by (intros j; f_equal; lia).
  rewrite row_of_array by lia. rewrite take_take_drop. f_equal. lia.
Qed.

(** With one channel, moving the channel axis to the front leaves the
    elements where they are. *)
Lemma transpose_single_channel (d : list Z) h w :
  length d = h * w →
  flat_map (fun k =>
    flat_map (fun i => map (fun j => nth ((i * w + j) * 1 + k) d 0%Z) (seq 0 w)) (seq 0 h))
    (seq 0 1) = d.
Proof.
  intros Hlen. simpl. rewrite app_nil_r, rows_of_array by lia. apply take_ge. lia.
Qed.

(** C6 (amended).  Every pair [__getitem__] yields has a mask tensor of
    rank 3 with [float32] elements; when no augmentation is set its
    dimensions are [(1, height, width)] of the stored mask, and its
    elements are the grey levels of the file, whatever their value. *)
Theorem getitem_mask_layout fs self i image mask :
  SynpickDataset_getitem fs self i = OK (image, mask) →
  ndim mask = 3 ∧ dt mask = float32 ∧
  (truthy (augmentation self) = false →
   ∃ mask_fp f,
     py_index (masks_fps self) i = OK mask_fp ∧
     lookup_file fs mask_fp = Some (Picture f) ∧
     shape mask = [1; rows f; cols f] ∧
     (length (gray f) = rows f * cols f → data mask = gray f)).
Proof.
  unfold SynpickDataset_getitem. intros H.
  apply bind_inv in H as (image_fp & Hifp & H).
  apply bind_inv in H as (img & Himg & H).
  apply bind_inv in H as (mask_fp & Hmfp & H).
  apply bind_inv in H as ([img' msk'] & Haug & H).
  apply bind_inv in H as (timg & Htimg & H).
  apply bind_inv in H as (tmsk & Htmsk & H).
  simplify_eq.
  apply to_torch_inv in Htmsk as (h & w & c & Hshape & Hts & Hdt & Hdata).
  split; [unfold ndim; by rewrite Hts|]. split; [done|].
  intros Hno. rewrite Hno in Haug. simplify_eq.
  exists mask_fp. unfold cv2_imread in *.
  destruct (lookup_file fs mask_fp) as [[f|?]|]; simplify_eq/=.
  exists f. split; [done|]. split; [done|]. split; [done|].
  intros Hlen. rewrite Hdata. by apply transpose_single_channel.
Qed.

Lemma example_dataset_init :
  SynpickDataset_init example_store (VStr "images") (VStr "masks")
    (VList ["object_1"]) VNone VNone = OK example_dataset.
Proof. by vm_compute. Qed.

Lemma getitem_mask_layout_witness :
  ∃ image mask,
    SynpickDataset_getitem example_store example_dataset 0 = OK (image, mask) ∧
    ndim mask = 3 ∧ dt mask = float32 ∧
    shape mask = [1; 2; 2] ∧ data mask = [0; 1; 21; 200]%Z.
Proof.
  destruct (SynpickDataset_getitem example_store example_dataset 0)
    as [[image mask]|] eqn:Hget; [|by vm_compute in Hget].
  exists image, mask. split; [reflexivity|].
  destruct (getitem_mask_layout _ _ _ _ _ Hget) as (Hrank & Hdt & Hplain).
  split; [exact Hrank|]. split; [exact Hdt|].
  destruct (Hplain eq_refl) as (mask_fp & f & Hfp & Hfile & Hshape & Hdata).
  vm_compute in Hfp. injection Hfp as <-.
  vm_compute in Hfile. injection Hfile as <-.
  split; [exact Hshape|]. exact (Hdata eq_refl).
Defined.

(** C6 as stated fails: the mask of the first sample has rank 3, its
    elements are floats, and one of them is 200, above every class id. *)
Lemma getitem_mask_layout_counterexample :
  ∃ image mask,
    SynpickDataset_getitem example_store example_dataset 0 = OK (image, mask) ∧
    shape mask = [1; 2; 2] ∧ ndim mask ≠ 2 ∧ dt mask ≠ uint8 ∧
    ¬ Forall (fun v => 0 ≤ v ≤ Z.of_nat NUM_CLASSES - 1)%Z (data mask).
Proof.
  eexists _, _. split; [by vm_compute|]. cbn [shape ndim dt data].
  split; [done|]. split; [done|]. split; [done|].
  intros H. do 3 apply Forall_cons in H as [_ H]. apply Forall_cons in H as [H _].
  vm_compute in H. destruct H as [_ H]. by apply H.
Qed.

Lemma str_le_total : Total str_le.
Proof. intros a b. unfold str_le. apply String.leb_total. Qed.

Lemma sorted_is_sorted l : Sorted str_le (sorted l).
Proof. apply (@Sorted_merge_sort _ str_le _ str_le_total). Qed.

Lemma sorted_permutation l : sorted l ≡ₚ l.
Proof. apply merge_sort_Permutation. Qed.

Lemma sorted_length l : length (sorted l) = length l.
Proof. by rewrite sorted_permutation. Qed.

Lemma py_index_nat {A} (l : list A) (i : nat) x :
  l !! i = Some x → py_index l (Z.of_nat i) = OK x.
Proof.
  intros Hx. unfold py_index. destruct (decide (0 <= Z.of_nat i)%Z) as [_|?]; [|lia].
  unfold index. by rewrite Nat2Z.id, Hx.
Qed.

(** C7.  Whatever the two directory listings are, the constructor
    succeeds (given valid class names) without comparing them: it sorts
    each listing on its own, and item [i] is read from the [i]-th sorted
    picture name and the [i]-th sorted mask name. *)
Theorem pairing_by_sorted_position fs idir mdir classes aug prep il ml cs cv :
  os_listdir fs idir = OK il →
  os_listdir fs mdir = OK ml →
  iterate classes = OK cs →
  class_values_of cs = OK cv →
  ∃ ds,
    SynpickDataset_init fs (VStr idir) (VStr mdir) classes aug prep = OK ds ∧
    image_ids ds = sorted il ∧ mask_ids ds = sorted ml ∧
    Sorted str_le (image_ids ds) ∧ image_ids ds ≡ₚ il ∧
    Sorted str_le (mask_ids ds) ∧ mask_ids ds ≡ₚ ml ∧
    SynpickDataset_len ds = length il ∧
    (∀ (i : nat) a b,
       sorted il !! i = Some a → sorted ml !! i = Some b →
       images_fps ds !! i = Some (os_path_join idir a) ∧
       masks_fps ds !! i = Some (os_path_join mdir b) ∧
       SynpickDataset_getitem fs ds (Z.of_nat i)
       = read_pair fs aug (os_path_join idir a) (os_path_join mdir b)).
Proof.
  intros Hil Hml Hcs Hcv. unfold SynpickDataset_init. simpl.
  rewrite Hil, bind_OK, Hml, bind_OK, Hcs, bind_OK, Hcv, bind_OK.
  eexists. split; [reflexivity|]. cbn [image_ids mask_ids images_fps masks_fps].
  split; [done|]. split; [done|].
  split; [apply sorted_is_sorted|]. split; [apply sorted_permutation|].
  split; [apply sorted_is_sorted|]. split; [apply sorted_permutation|].
  split; [unfold SynpickDataset_len; simpl; apply sorted_length|].
  intros i a b Ha Hb.
  assert (Hi : (os_path_join idir <$> sorted il) !! i = Some (os_path_join idir a))
    by (by rewrite list_lookup_fmap, Ha).
  assert (Hm : (os_path_join mdir <$> sorted ml) !! i = Some (os_path_join mdir b))
    by (by rewrite list_lookup_fmap, Hb).
  split; [done|]. split; [done|].
  unfold SynpickDataset_getitem, read_pair. cbn [images_fps masks_fps augmentation].
  rewrite (py_index_nat _ _ _ Hi), bind_OK.
  destruct (cv2_cvtColor_BGR2RGB _) as [img|e]; [|done].
  rewrite !bind_OK. by rewrite (py_index_nat _ _ _ Hm), bind_OK.
Qed.

Lemma pairing_by_sorted_position_witness :
  ∃ ds image mask,
    SynpickDataset_init mismatched_store (VStr "images") (VStr "masks")
      (VList ["object_1"]) VNone VNone = OK ds ∧
    image_ids ds = ["a.png"; "b.png"] ∧
    mask_ids ds = ["b.png"; "c.png"; "d.png"] ∧
    SynpickDataset_getitem mismatched_store ds 0 = OK (image, mask) ∧
    SynpickDataset_getitem mismatched_store ds 0
    = read_pair mismatched_store VNone (os_path_join "images" "a.png")
        (os_path_join "masks" "b.png") ∧
    data mask = [1; 1; 2; 2]%Z.
Proof.
  edestruct (pairing_by_sorted_position mismatched_store "images" "masks"
               (VList ["object_1"]) VNone VNone)
    as (ds & Hds & Hi & Hm & _ & _ & _ & _ & _ & Hpair);
    [vm_compute; reflexivity..|].
  destruct (Hpair 0 "a.png" "b.png") as (_ & _ & Hget); [by vm_compute..|].
  exists ds. eexists _, _. split; [exact Hds|].
  split; [rewrite Hi; by vm_compute|]. split; [rewrite Hm; by vm_compute|].
  change (Z.of_nat 0) with 0%Z in Hget. rewrite Hget.
  split; [by vm_compute|]. split; [reflexivity|]. reflexivity.
Defined.

(** The constructor is never given [data_dir]. *)
Lemma call_with_data_dir fs v aug :
  SynpickDataset_call fs [("data_dir", v); ("augmentation", aug)]
  = Raise unexpected_data_dir.
Proof. reflexivity. Qed.

(** With the parameters it has and [classes] left at its default, the
    constructor raises: at a directory it cannot list or, when both can
    be listed, at the loop over [classes]. *)
Lemma call_without_classes fs i m aug :
  match os_listdir fs i, os_listdir fs m with
  | OK _, OK _ =>
      SynpickDataset_call fs
        [("images_dir", VStr i); ("masks_dir", VStr m); ("augmentation", aug)]
      = Raise none_not_iterable
  | _, _ =>
      raises (SynpickDataset_call fs
        [("images_dir", VStr i); ("masks_dir", VStr m); ("augmentation", aug)])
  end.
Proof.
  unfold SynpickDataset_call, bind_call. cbn. unfold SynpickDataset_init. cbn.
  destruct (os_listdir fs i) as [il|e1]; cbn; [|done].
  destruct (os_listdir fs m) as [ml|e2]; cbn; done.
Qed.

End dataset_facts.

(** * The training loop *)

Module main_facts.
Import dataset main dataset_spec main_spec dataset_facts result_facts.
Local Open Scope Qc_scope.

Lemma Run_bind_OK {A B} (f : A → Run B) (r : Run A) a w w' :
  r w = (OK a, w') → (r ≫= f) w = f a w'.
Proof. intros H. unfold mbind, Run_bind. by rewrite H. Qed.

Lemma train_batches_run i rate bs w :
  train_batches i rate bs w
  = (OK tt, {| fs := fs w; events := events w ++ ((fun b => EvTrainStep i b rate) <$> bs) |}).
Proof.
  revert w. induction bs as [|b bs IH]; intros w; simpl.
  - rewrite app_nil_r. by destruct w.
  - erewrite Run_bind_OK by reflexivity. rewrite IH. simpl. by rewrite <- app_assoc.
Qed.

Lemma saves_app a b : saves (a ++ b) = saves a ++ saves b.
Proof. apply omap_app. Qed.

Lemma decays_app a b : decays (a ++ b) = decays a ++ decays b.
Proof. apply omap_app. Qed.

Lemma train_steps_app a b : train_steps (a ++ b) = train_steps a ++ train_steps b.
Proof. apply omap_app. Qed.

Lemma saves_batches i l bs : saves ((fun b => EvTrainStep i b l) <$> bs) = [].
Proof. induction bs as [|b bs IH]; [done|]. exact IH. Qed.

Lemma decays_batches i l bs : decays ((fun b => EvTrainStep i b l) <$> bs) = [].
Proof. induction bs as [|b bs IH]; [done|]. exact IH. Qed.

Lemma train_steps_batches i l bs :
  train_steps ((fun b => EvTrainStep i b l) <$> bs) = (fun b => (i, b, l)) <$> bs.
Proof. induction bs as [|b bs IH]; [done|]. cbn. unfold train_steps in IH. by rewrite IH. Qed.

Lemma saves_epoch env out_dir i st :
  saves (epoch_events env out_dir i st)
  = if decide (max_accuracy st < get_accuracy env i) then [i] else [].
Proof.
  unfold epoch_events. rewrite saves_app, saves_batches.
  destruct (decide (max_accuracy st < get_accuracy env i));
    destruct (decide (i = 25%nat)); reflexivity.
Qed.

Lemma decays_epoch env out_dir i st :
  decays (epoch_events env out_dir i st) = if decide (i = 25%nat) then [i] else [].
Proof.
  unfold epoch_events. rewrite decays_app, decays_batches.
  destruct (decide (max_accuracy st < get_accuracy env i));
    destruct (decide (i = 25%nat)); reflexivity.
Qed.

Lemma train_steps_epoch env out_dir i st :
  train_steps (epoch_events env out_dir i st)
  = (fun b => (i, b, lr st)) <$> seq 0 (len_train_loader env).
Proof.
  unfold epoch_events. rewrite train_steps_app, train_steps_batches.
  destruct (decide (max_accuracy st < get_accuracy env i));
    destruct (decide (i = 25%nat)); simpl; by rewrite app_nil_r.
Qed.

(** One epoch, when the run directory exists. *)
Lemma epoch_run env out_dir i st w entries :
  fs w !! out_dir = Some entries →
  epoch env out_dir i st w
  = (OK (epoch_locals env i st),
     {| fs := store_after out_dir entries (saves (epoch_events env out_dir i st)) (fs w);
        events := events w ++ epoch_events env out_dir i st |}).
Proof.
  intros Hdir. rewrite saves_epoch. unfold epoch, epoch_locals, epoch_events, store_after.
  erewrite Run_bind_OK by apply train_batches_run.
  erewrite Run_bind_OK by reflexivity.
  destruct (decide (max_accuracy st < get_accuracy env i)) as [Hlt|Hge].
  - erewrite (Run_bind_OK _ (_ ≫= _)); cycle 1.
    { erewrite Run_bind_OK; [reflexivity|]. unfold torch_save. simpl. rewrite Hdir. reflexivity. }
    erewrite Run_bind_OK by reflexivity.
    destruct (decide (i = 25%nat)) as [->|Hne]; simpl.
    + erewrite Run_bind_OK by reflexivity. unfold mret, Run_ret. simpl.
      by rewrite <- !app_assoc.
    + unfold mret, Run_ret. simpl. by rewrite <- !app_assoc.
  - erewrite (Run_bind_OK _ (mret st)) by reflexivity.
    erewrite Run_bind_OK by reflexivity.
    destruct (decide (i = 25%nat)) as [->|Hne]; simpl.
    + erewrite Run_bind_OK by reflexivity. unfold mret, Run_ret. simpl.
      destruct st; simpl. by rewrite <- !app_assoc.
    + unfold mret, Run_ret. simpl. destruct st; simpl. by rewrite <- !app_assoc.
Qed.

Lemma store_after_lookup out_dir entries saved (files : FileSystem) :
  files !! out_dir = Some entries →
  store_after out_dir entries saved files !! out_dir
  = Some (match last saved with
          | Some e => <["best_model.pth" := Pickle e]> entries
          | None => entries
          end).
Proof.
  intros Hdir. unfold store_after. destruct (last saved); [|done].
  by rewrite lookup_insert_eq.
Qed.

Lemma store_after_app out_dir entries s1 s2 (files : FileSystem) :
  store_after out_dir
    (match last s1 with
     | Some e => <["best_model.pth" := Pickle e]> entries
     | None => entries
     end) s2 (store_after out_dir entries s1 files)
  = store_after out_dir entries (s1 ++ s2) files.
Proof.
  unfold store_after. rewrite last_app.
  destruct (last s2) as [e2|]; destruct (last s1) as [e1|]; try done.
  by rewrite !insert_insert_eq.
Qed.

(** The loop, when the run directory exists: it does not raise, and the
    loop variables, the events and the store are those of the
    step-by-step description. *)
Lemma epochs_run env out_dir idxs : ∀ st w entries,
  fs w !! out_dir = Some entries →
  epochs env out_dir idxs st w
  = (OK (run_locals env idxs st),
     {| fs := store_after out_dir entries (saves (run_events env out_dir idxs st)) (fs w);
        events := events w ++ run_events env out_dir idxs st |}).
Proof.
  induction idxs as [|i rest IH]; intros st w entries Hdir.
  - simpl. unfold mret, Run_ret, store_after. simpl. rewrite app_nil_r. by destruct w.
  - cbn [epochs run_locals run_events].
    erewrite Run_bind_OK by (by apply epoch_run).
    erewrite IH by (by apply store_after_lookup).
    cbn [fs events]. rewrite store_after_app, <- saves_app, <- app_assoc. done.
Qed.

Lemma run_locals_app env l1 l2 st :
  run_locals env (l1 ++ l2) st = run_locals env l2 (run_locals env l1 st).
Proof. revert st. induction l1 as [|i l1 IH]; intros st; [done|]. simpl. apply IH. Qed.

Lemma run_events_app env d l1 l2 st :
  run_events env d (l1 ++ l2) st
  = run_events env d l1 st ++ run_events env d l2 (run_locals env l1 st).
Proof.
  revert st. induction l1 as [|i l1 IH]; intros st; [done|].
  simpl. by rewrite IH, <- app_assoc.
Qed.

(** [max_accuracy] after [n] epochs is the running maximum. *)
Lemma run_max_accuracy env n r :
  max_accuracy (run_locals env (seq 0 n) {| max_accuracy := 0; lr := r |})
  = best_so_far (get_accuracy env) n.
Proof.
  induction n as [|n IH]; [done|].
  rewrite seq_S, run_locals_app. simpl. by rewrite IH.
Qed.

Lemma best_so_far_mono acc i : best_so_far acc i ≤ best_so_far acc (S i).
Proof.
  simpl. destruct (decide (best_so_far acc i < acc i)) as [Hlt|_].
  - by apply Qclt_le_weak.
  - apply Qcle_refl.
Qed.

Lemma best_so_far_mono_le acc i j : (i ≤ j)%nat → best_so_far acc i ≤ best_so_far acc j.
Proof.
  induction 1 as [|j Hle IH]; [apply Qcle_refl|].
  eapply Qcle_trans; [exact IH|apply best_so_far_mono].
Qed.

Lemma best_so_far_nonneg acc i : 0 ≤ best_so_far acc i.
Proof. apply (best_so_far_mono_le acc 0 i). lia. Qed.

Lemma best_so_far_upper acc n j : (j < n)%nat → acc j ≤ best_so_far acc n.
Proof.
  intros Hj. eapply Qcle_trans; [|apply (best_so_far_mono_le acc (S j) n); lia].
  simpl. destruct (decide (best_so_far acc j < acc j)) as [|Hn]; [apply Qcle_refl|].
  by apply Qcnot_lt_le.
Qed.

(** The epochs that save are those whose accuracy beats the running
    maximum. *)
Lemma run_saves env d n r :
  saves (run_events env d (seq 0 n) {| max_accuracy := 0; lr := r |})
  = filter (fun i => best_so_far (get_accuracy env) i < get_accuracy env i) (seq 0 n).
Proof.
  induction n as [|n IH]; [done|].
  rewrite seq_S, run_events_app, saves_app, IH, filter_app. f_equal.
  simpl. rewrite app_nil_r, saves_epoch, run_max_accuracy.
  rewrite filter_cons, filter_nil.
  destruct (decide (best_so_far (get_accuracy env) n < get_accuracy env n)); done.
Qed.

Lemma last_improvement acc n : ∀ e,
  last (filter (fun i => best_so_far acc i < acc i) (seq 0 n)) = Some e →
  (e < n)%nat ∧ best_so_far acc e < acc e ∧ best_so_far acc n = acc e.
Proof.
  induction n as [|n IH]; intros e; [done|].
  rewrite seq_S, filter_app, filter_cons, filter_nil. simpl.
  destruct (decide (best_so_far acc n < acc n)) as [Hlt|Hn].
  - rewrite last_snoc. intros [= <-]. split; [lia|]. split; done.
  - rewrite app_nil_r. intros He. apply IH in He as (? & ? & ?).
    split; [lia|]. split; done.
Qed.

(** C2.  In a run of any number of epochs, started with an existing run
    directory: best-accuracy-so-far starts at 0, never decreases and is
    the value of [max_accuracy] after every number of epochs; the
    checkpoint is written after exactly those epochs whose validation
    accuracy is strictly greater than best-so-far, which then becomes
    that accuracy; and the checkpoint file holds the model of the last
    such epoch, whose accuracy is the best seen in the whole run and
    strictly better than every earlier epoch's. *)
Theorem checkpoint_on_improvement env n out_dir r w entries :
  fs w !! out_dir = Some entries →
  let acc := get_accuracy env in
  ∃ st w' evs,
    main_training env n out_dir r w = (OK st, w') ∧
    events w' = events w ++ evs ∧
    best_so_far acc 0 = 0 ∧
    (∀ i j, (i ≤ j)%nat → best_so_far acc i ≤ best_so_far acc j) ∧
    (∀ k, max_accuracy (run_locals env (seq 0 k) {| max_accuracy := 0; lr := r |})
          = best_so_far acc k) ∧
    max_accuracy st = best_so_far acc n ∧
    saves evs = filter (fun i => best_so_far acc i < acc i) (seq 0 n) ∧
    (∀ i, best_so_far acc i < acc i → best_so_far acc (S i) = acc i) ∧
    (∀ i, ¬ best_so_far acc i < acc i → best_so_far acc (S i) = best_so_far acc i) ∧
    lookup_file (fs w') (checkpoint_path out_dir)
      = match last (saves evs) with
        | Some e => Some (Pickle e)
        | None => entries !! "best_model.pth"
        end ∧
    (∀ e, last (saves evs) = Some e →
          acc e = max_accuracy st ∧
          (∀ j, (j < n)%nat → acc j ≤ acc e) ∧
          (∀ j, (j < e)%nat → acc j < acc e)).
Proof.
  intros Hdir acc. subst acc. unfold main_training. rewrite (epochs_run _ _ _ _ _ _ Hdir).
  eexists _, _, _. split; [reflexivity|]. cbn [events fs].
  split; [reflexivity|]. split; [reflexivity|].
  split; [apply best_so_far_mono_le|].
  split; [intros k; apply run_max_accuracy|].
  split; [apply run_max_accuracy|].
  split; [apply run_saves|].
  split; [intros i Hi; cbn [best_so_far]; by rewrite decide_True|].
  split; [intros i Hi; cbn [best_so_far]; by rewrite decide_False|].
  split.
  - unfold lookup_file, checkpoint_path. cbn [dir name].
    rewrite (store_after_lookup _ _ _ _ Hdir). simpl.
    destruct (last _); [by rewrite lookup_insert_eq|done].
  - intros e He. rewrite run_saves in He. apply last_improvement in He as (Hlt & Himp & Hbest).
    rewrite run_max_accuracy. split; [done|]. split.
    + intros j Hj. rewrite <- Hbest. by apply best_so_far_upper.
    + intros j Hj. eapply Qcle_lt_trans; [|exact Himp]. by apply best_so_far_upper.
Qed.

Lemma checkpoint_on_improvement_witness :
  let env := example_env [Q2Qc (5 # 10); Q2Qc (7 # 10); Q2Qc (6 # 10); Q2Qc (9 # 10)] 2 in
  ∃ st w' evs,
    main_training env 4 "out/run_0" config.LEARNING_RATE (example_world "out/run_0")
      = (OK st, w') ∧
    events w' = evs ∧
    saves evs = [0; 1; 3]%nat ∧
    max_accuracy st = Q2Qc (9 # 10) ∧
    lookup_file (fs w') (checkpoint_path "out/run_0") = Some (Pickle 3).
Proof.
  intros env.
  destruct (checkpoint_on_improvement env 4 "out/run_0" config.LEARNING_RATE
              (example_world "out/run_0") ∅ eq_refl)
    as (st & w' & evs & Hrun & Hev & _ & _ & _ & Hmax & Hsaves & _ & _ & Hfile & _).
  exists st, w', evs. split; [exact Hrun|]. split; [exact Hev|].
  assert (Hs : saves evs = [0; 1; 3]%nat) by (rewrite Hsaves; vm_compute; reflexivity).
  split; [exact Hs|]. split; [rewrite Hmax; vm_compute; reflexivity|].
  rewrite Hfile, Hs. reflexivity.
Defined.

(** The learning rate the loop holds after [k] epochs. *)
Lemma run_lr env k r :
  lr (run_locals env (seq 0 k) {| max_accuracy := 0; lr := r |}) = rate_in_epoch r k.
Proof.
  induction k as [|k IH]; [done|].
  rewrite seq_S, run_locals_app. simpl. rewrite IH. unfold rate_in_epoch.
  destruct (decide (k = 25%nat)) as [->|Hne]; [done|].
  destruct (decide (k ≤ 25)%nat); destruct (decide (S k ≤ 25)%nat); done || lia.
Qed.

Lemma run_train_steps env d n r :
  train_steps (run_events env d (seq 0 n) {| max_accuracy := 0; lr := r |})
  = flat_map (fun i => (fun b => (i, b, rate_in_epoch r i)) <$> seq 0 (len_train_loader env))
      (seq 0 n).
Proof.
  induction n as [|n IH]; [done|].
  rewrite seq_S, run_events_app, train_steps_app, IH, flat_map_app. f_equal.
  simpl. rewrite !app_nil_r, train_steps_epoch, run_lr. done.
Qed.

Lemma run_decays env d n r :
  decays (run_events env d (seq 0 n) {| max_accuracy := 0; lr := r |})
  = if decide (25 < n)%nat then [25%nat] else [].
Proof.
  induction n as [|n IH]; [done|].
  rewrite seq_S, run_events_app, decays_app, IH. simpl.
  rewrite app_nil_r, decays_epoch.
  destruct (decide (n = 25%nat)) as [->|Hne]; [done|].
  destruct (decide (25 < n)%nat); destruct (decide (25 < S n)%nat); done || lia.
Qed.

(** C3 (amended).  In a 30-epoch run with initial rate [r], whatever the
    validation accuracies: every optimizer step of epochs 0 to 25 uses
    [r] and every step of epochs 26 to 29 uses [0.1 * r]; the rate is
    scaled exactly once, after epoch 25, and is [0.1 * r] when the loop
    ends. *)
Theorem learning_rate_schedule env out_dir r w entries :
  fs w !! out_dir = Some entries →
  ∃ st w' evs,
    main_training env 30 out_dir r w = (OK st, w') ∧
    events w' = events w ++ evs ∧
    train_steps evs
      = flat_map (fun i => (fun b => (i, b, rate_in_epoch r i))
                             <$> seq 0 (len_train_loader env)) (seq 0 30) ∧
    (∀ i, (i ≤ 25)%nat → rate_in_epoch r i = r) ∧
    (∀ i, (26 ≤ i)%nat → rate_in_epoch r i = r * Q2Qc (1 # 10)) ∧
    decays evs = [25%nat] ∧
    lr st = r * Q2Qc (1 # 10).
Proof.
  intros Hdir. unfold main_training. rewrite (epochs_run _ _ _ _ _ _ Hdir).
  eexists _, _, _. split; [reflexivity|]. cbn [events fs].
  split; [reflexivity|]. split; [apply run_train_steps|].
  split; [intros i Hi; unfold rate_in_epoch; by rewrite decide_True|].
  split; [intros i Hi; unfold rate_in_epoch; rewrite decide_False; [done|lia]|].
  split; [by rewrite run_decays|].
  by rewrite run_lr.
Qed.

Lemma learning_rate_schedule_witness :
  ∃ st w' evs,
    main_training (example_env [] 1) 30 "out/run_0" config.LEARNING_RATE
      (example_world "out/run_0") = (OK st, w') ∧
    events w' = evs ∧
    train_steps evs
      = ((fun i => (i, 0%nat, config.LEARNING_RATE)) <$> seq 0 26)
        ++ ((fun i => (i, 0%nat, config.LEARNING_RATE * Q2Qc (1 # 10))) <$> seq 26 4) ∧
    decays evs = [25%nat] ∧
    lr st = config.LEARNING_RATE * Q2Qc (1 # 10).
Proof.
  destruct (learning_rate_schedule (example_env [] 1) "out/run_0" config.LEARNING_RATE
              (example_world "out/run_0") ∅ eq_refl)
    as (st & w' & evs & Hrun & Hev & Hsteps & _ & _ & Hdec & Hlr).
  exists st, w', evs. split; [exact Hrun|]. split; [exact Hev|].
  split; [rewrite Hsteps; reflexivity|]. split; [exact Hdec|exact Hlr].
Defined.

(** C3 as stated fails at epoch 25: its batches are trained with [r],
    not with [0.1 * r]. *)
Lemma learning_rate_schedule_counterexample :
  ∃ st w',
    main_training (example_env [] 1) 30 "out/run_0" config.LEARNING_RATE
      (example_world "out/run_0") = (OK st, w') ∧
    train_steps (events w') !! 25%nat = Some (25%nat, 0%nat, config.LEARNING_RATE) ∧
    ((25%nat, 0%nat, config.LEARNING_RATE * Q2Qc (1 # 10)) ∉ train_steps (events w')) ∧
    config.LEARNING_RATE ≠ config.LEARNING_RATE * Q2Qc (1 # 10).
Proof.
  unfold main_training. erewrite epochs_run by reflexivity.
  eexists _, _. split; [reflexivity|]. cbn [events example_world app].
  rewrite run_train_steps.
  assert (Hne : config.LEARNING_RATE ≠ config.LEARNING_RATE * Q2Qc (1 # 10))
    by (vm_compute; discriminate).
  split; [reflexivity|]. split; [|exact Hne].
  intros Hin. apply list_elem_of_In in Hin. apply in_flat_map in Hin as (i & _ & Hin).
  apply list_elem_of_In, list_elem_of_fmap in Hin as (b & Heq & _).
  injection Heq as <- _ Hrate. unfold rate_in_epoch in Hrate.
  rewrite decide_True in Hrate by lia. by symmetry in Hrate.
Qed.

Lemma no_improvement acc n :
  (∀ i, (i < n)%nat → acc i ≤ 0) →
  filter (fun i => best_so_far acc i < acc i) (seq 0 n) = [].
Proof.
  induction n as [|n IH]; intros Hacc; [done|].
  rewrite seq_S, filter_app, IH by (intros i Hi; apply Hacc; lia).
  simpl. rewrite filter_cons, filter_nil.
  destruct (decide (best_so_far acc n < acc n)) as [Hlt|_]; [|done].
  exfalso. eapply Qclt_not_le; [exact Hlt|].
  eapply Qcle_trans; [apply Hacc; lia|apply best_so_far_nonneg].
Qed.

Lemma setup_network :
  seg_model.UNet_init 3 (Z.of_nat NUM_CLASSES) [64; 128; 256; 512]%Z
  = OK {| seg_model.downs := seg_model.make_downs 3 [64; 128; 256; 512]%Z;
          seg_model.ups := seg_model.make_ups (reverse [64; 128; 256; 512]%Z);
          seg_model.pool := seg_model.MaxPool2d 2 2;
          seg_model.bottleneck := seg_model.DoubleConv_init 512 (512 * 2);
          seg_model.final_conv := seg_model.Conv2d 64 22 1 1 0;
          seg_model.training := true |}.
Proof. reflexivity. Qed.

Lemma main_setup_run env w :
  main_setup env w
  = match fs w !! run_dir env with
    | Some _ => (Raise (FileExistsError (run_dir env)), w)
    | None => (OK (run_dir env), {| fs := <[run_dir env := ∅]> (fs w); events := events w |})
    end.
Proof.
  unfold main_setup, mbind, Run_bind, lift, mkdir, run_dir. rewrite setup_network.
  destruct (fs w !! _); reflexivity.
Qed.

Lemma loads_app a b : loads (a ++ b) = loads a ++ loads b.
Proof. apply omap_app. Qed.

Lemma loads_epoch env d i st : loads (epoch_events env d i st) = [].
Proof.
  unfold epoch_events. rewrite loads_app.
  assert (Hb : ∀ bs, loads ((fun b => EvTrainStep i b (lr st)) <$> bs) = []).
  { induction bs as [|b bs IH]; [done|exact IH]. }
  rewrite Hb.
  destruct (decide (max_accuracy st < get_accuracy env i));
    destruct (decide (i = 25%nat)); reflexivity.
Qed.

Lemma loads_run env d idxs : ∀ st, loads (run_events env d idxs st) = [].
Proof.
  induction idxs as [|i rest IH]; intros st; [done|].
  simpl. by rewrite loads_app, loads_epoch, IH.
Qed.

(** C10.  When no epoch's validation accuracy is above 0, a run (of any
    number of epochs, zero included) raises and never saves a checkpoint;
    started where its run directory does not exist yet, it gets as far
    as the final load, which raises [FileNotFoundError] for
    [best_model.pth], and nothing catches it. *)
Theorem no_checkpoint_no_test env n r test_dir w :
  (∀ i, (i < n)%nat → get_accuracy env i ≤ 0) →
  ∃ e w',
    main_run env n r test_dir w = (Raise e, w') ∧
    saves (events w') = saves (events w) ∧
    loads (events w') = loads (events w) ∧
    (fs w !! run_dir env = None →
       e = FileNotFoundError (path_str (checkpoint_path (run_dir env))) ∧
       fs w' !! run_dir env = Some ∅ ∧
       lookup_file (fs w') (checkpoint_path (run_dir env)) = None).
Proof.
  intros Hacc. unfold main_run. unfold mbind at 1, Run_bind at 1.
  rewrite main_setup_run. destruct (fs w !! run_dir env) as [old|] eqn:Hdir.
  - eexists _, _. split; [reflexivity|]. done.
  - unfold mbind at 1, Run_bind at 1. unfold main_training.
    erewrite epochs_run by (cbn [fs]; apply lookup_insert_eq).
    cbn [fs events]. rewrite run_saves, (no_improvement _ _ Hacc).
    unfold store_after. cbn [last].
    unfold main_testing, mbind at 1, Run_bind at 1, torch_load, lookup_file.
    cbn [fs events dir name checkpoint_path]. rewrite lookup_insert_eq. simpl.
    rewrite lookup_empty.
    eexists _, _. split; [reflexivity|]. cbn [events fs].
    rewrite saves_app, run_saves, (no_improvement _ _ Hacc), app_nil_r.
    rewrite loads_app, loads_run, app_nil_r.
    split; [done|]. split; [done|].
    intros _. split; [done|]. split; [apply lookup_insert_eq|].
    rewrite lookup_insert_eq. simpl. apply lookup_empty.
Qed.

Lemma no_checkpoint_no_test_witness :
  ∃ w',
    main_run (example_env [] 2) 3 config.LEARNING_RATE "data/test"
      {| fs := ∅; events := [] |}
    = (Raise (FileNotFoundError "out/run_0/best_model.pth"), w') ∧
    saves (events w') = [] ∧ loads (events w') = [] ∧
    lookup_file (fs w') (checkpoint_path "out/run_0") = None.
Proof.
  destruct (no_checkpoint_no_test (example_env [] 2) 3 config.LEARNING_RATE "data/test"
              {| fs := ∅; events := [] |}) as (e & w' & Hrun & Hs & Hl & Hfresh).
  - intros i _. assert (H : nth i [] (0 : Qc) = 0) by (by destruct i).
    cbn [get_accuracy example_env]. rewrite H. apply Qcle_refl.
  - destruct (Hfresh eq_refl) as (-> & _ & Hfile).
    exists w'. split; [exact Hrun|]. split; [exact Hs|]. split; [exact Hl|exact Hfile].
Defined.

(** C5.  Every call of [main] raises and leaves the world as it found
    it, so no training step has run; with a data directory given, the
    exception is the [TypeError] for the keyword [data_dir], which the
    constructor does not have; and a call with the parameters it does
    have, [classes] left at its default [None], raises as well, at the
    loop over [classes] when both directories can be listed. *)
Theorem main_fails_before_training :
  (∀ env args w, ∃ e, main env args w = (Raise e, w)) ∧
  (∀ env data_dir rest w, main env (data_dir :: rest) w = (Raise unexpected_data_dir, w)) ∧
  (∀ fs v aug,
     SynpickDataset_call fs [("data_dir", v); ("augmentation", aug)]
     = Raise unexpected_data_dir) ∧
  (∀ fs i m aug,
     raises (SynpickDataset_call fs
       [("images_dir", VStr i); ("masks_dir", VStr m); ("augmentation", aug)])) ∧
  (∀ fs i m aug,
     match os_listdir fs i, os_listdir fs m with
     | OK _, OK _ =>
         SynpickDataset_call fs
           [("images_dir", VStr i); ("masks_dir", VStr m); ("augmentation", aug)]
         = Raise none_not_iterable
     | _, _ => True
     end).
Proof.
  split; [|split; [|split; [|split]]].
  - intros env [|data_dir rest] w; eexists; reflexivity.
  - reflexivity.
  - reflexivity.
  - intros fs i m aug. pose proof (call_without_classes fs i m aug) as H.
    destruct (os_listdir fs i); [destruct (os_listdir fs m)|]; try done.
    by rewrite H.
  - intros fs i m aug. pose proof (call_without_classes fs i m aug) as H.
    destruct (os_listdir fs i); [destruct (os_listdir fs m)|]; done.
Qed.

Lemma main_fails_before_training_example :
  main (example_env [] 2) ["data"] {| fs := example_store; events := [] |}
  = (Raise unexpected_data_dir, {| fs := example_store; events := [] |}) ∧
  SynpickDataset_call example_store [("images_dir", VStr "images"); ("masks_dir", VStr "masks")]
  = Raise none_not_iterable.
Proof. split; reflexivity. Qed.

End main_facts.

(** * The value-range adapters *)

Module utils_facts.
Import utils utils_spec result_facts.
Local Open Scope Qc_scope.

Lemma Qc_difference_nonzero (a b : Qc) : a ≠ b → a - b ≠ 0.
Proof. intros Hne H. apply Hne. rewrite <- (Qcplus_0_l b), <- H. ring. Qed.

Lemma to_test_of_model (m_min m_max t_min t_max x : Qc) :
  m_max ≠ m_min → t_max ≠ t_min →
  (((x - t_min) / (t_max - t_min) * (m_max - m_min) + m_min) - m_min)
    / (m_max - m_min) * (t_max - t_min) + t_min = x.
Proof.
  intros Hm Ht.
  pose proof (Qc_difference_nonzero _ _ Hm). pose proof (Qc_difference_nonzero _ _ Ht).
  field. done.
Qed.

Lemma pointwise_pointwise f g img : pointwise f (pointwise g img) = pointwise (f ∘ g) img.
Proof. unfold pointwise. simpl. by rewrite <- list_fmap_compose. Qed.

Lemma pointwise_id f img : (∀ x, f x = x) → pointwise f img = img.
Proof.
  intros Hf. destruct img as [sz el]. unfold pointwise. cbn [size elems]. f_equal.
  induction el as [|x el IH]; [done|]. by rewrite fmap_cons, Hf, IH.
Qed.

(** C8.  For every image tensor and every pair of value ranges whose
    ends differ, ScaleToModel and ScaleToTest built from the two ranges
    undo each other, in either order, over exact rational arithmetic. *)
Theorem scale_round_trip (m_min m_max t_min t_max : Qc) (img : Tensor) :
  m_max ≠ m_min → t_max ≠ t_min →
  ∃ to_model to_test,
    ScaleToModel.init [m_min; m_max] [t_min; t_max] = OK to_model ∧
    ScaleToTest.init [m_min; m_max] [t_min; t_max] = OK to_test ∧
    ScaleToTest.forward to_test (ScaleToModel.forward to_model img) = img ∧
    ScaleToModel.forward to_model (ScaleToTest.forward to_test img) = img.
Proof.
  intros Hm Ht. eexists _, _. split; [reflexivity|]. split; [reflexivity|].
  unfold ScaleToTest.forward, ScaleToModel.forward. simpl.
  rewrite !pointwise_pointwise. split; apply pointwise_id; intros x; simpl.
  - by apply to_test_of_model.
  - by apply to_test_of_model.
Qed.

Lemma scale_round_trip_witness :
  ∃ to_model to_test,
    ScaleToModel.init [Q2Qc (-1); Q2Qc 1] [Q2Qc 0; Q2Qc 1] = OK to_model ∧
    ScaleToTest.init [Q2Qc (-1); Q2Qc 1] [Q2Qc 0; Q2Qc 1] = OK to_test ∧
    ScaleToTest.forward to_test (ScaleToModel.forward to_model example_tensor)
      = example_tensor ∧
    ScaleToModel.forward to_model (ScaleToTest.forward to_test example_tensor)
      = example_tensor.
Proof.
  apply (scale_round_trip (Q2Qc (-1)) (Q2Qc 1) (Q2Qc 0) (Q2Qc 1) example_tensor).
  - vm_compute. discriminate.
  - vm_compute. discriminate.
Defined.

(** The image-size check leaves the pipelines alone or appends one
    resize to each. *)
Lemma check_img_shape_inv mc rc strict pp pp' :
  check_img_shape mc rc strict pp = OK pp' →
  pp' = pp ∨ ∃ a b c d, pp' = (pp.1 ++ [TResize a b], pp.2 ++ [TResize c d]).
Proof.
  unfold check_img_shape. intros H.
  apply bind_inv in H as (ms & _ & H).
  apply bind_inv in H as ([[mc' mh] mw] & _ & H).
  apply bind_inv in H as (ts & _ & H).
  apply bind_inv in H as ([[tc th] tw] & _ & H).
  destruct (decide (mc' ≠ tc)); [done|].
  destruct (decide (mh ≠ th ∨ mw ≠ tw)); [|left; by simplify_eq].
  destruct strict; [done|]. right. simplify_eq. by eexists _, _, _, _.
Qed.

(** What the value-range check does, once both ranges are there. *)
Lemma check_value_range_run mc rc strict pp mr tr :
  mc !! "tensor_value_range" = Some (VSeq mr) →
  rc !! "tensor_value_range" = Some (VSeq tr) →
  check_value_range mc rc strict pp
  = if decide (mr ≠ tr)
    then if strict then Raise (ValueError value_ranges_differ_msg)
         else stm ← ScaleToModel.init mr tr;
              stt ← ScaleToTest.init mr tr;
              OK (pp.1 ++ [TScaleToModel stm], pp.2 ++ [TScaleToTest stt])
    else OK pp.
Proof. intros Hm Ht. unfold check_value_range, getitem. by rewrite Hm, Ht. Qed.

(** A returned pair of pipelines went through the first three checks. *)
Lemma check_model_compatibility_inv mc rc model strict pp rc' :
  check_model_compatibility mc rc model strict = (OK pp, rc') →
  ∃ pp0, check_value_range mc rc strict ([], []) = OK pp0 ∧
         check_img_shape mc rc strict pp0 = OK pp.
Proof.
  unfold check_model_compatibility. intros H.
  destruct (check_value_range mc rc strict ([], [])) as [pp0|e] eqn:Hvr; [|done].
  rewrite bind_OK in H.
  destruct (check_actions mc rc model) as [[]|e]; [|done].
  rewrite bind_OK in H.
  destruct (check_img_shape mc rc strict pp0) as [pp1|e] eqn:Hs; [|done].
  destruct (check_frames mc rc model) as [[[]|e] rc1]; [|done].
  simplify_eq. by exists pp0.
Qed.

Lemma clean_bind {A B} (r : result A) (f : A → result B) :
  clean r → (∀ a, clean (f a)) → clean (r ≫= f).
Proof.
  unfold clean. destruct r as [a|e]; simpl; [auto|].
  intros Hr _ [= ->]. by apply Hr.
Qed.

Lemma clean_getitem cfg k : clean (getitem cfg k).
Proof. unfold clean, getitem. by destruct (cfg !! k). Qed.

Lemma clean_unpack3 v : clean (unpack3 v).
Proof. unfold clean. by destruct v as [| | |[|? [|? [|? [|? ?]]]]]. Qed.

Lemma clean_value_ltb v q : clean (value_ltb v q).
Proof. unfold clean, value_ltb. by destruct (as_number v). Qed.

Lemma clean_check_actions mc rc model : clean (check_actions mc rc model).
Proof.
  unfold check_actions.
  apply clean_bind; [apply clean_getitem|intros mdl_ac].
  apply clean_bind; [apply clean_getitem|intros run_ac].
  destruct (can_handle_actions model); [|done].
  destruct (truthy mdl_ac); [destruct (negb (truthy run_ac)); [done|]|by destruct (truthy run_ac)].
  apply clean_bind; [apply clean_getitem|intros a].
  apply clean_bind; [apply clean_getitem|intros b].
  by destruct (value_eqb a b).
Qed.

Lemma clean_check_img_shape mc rc strict pp : clean (check_img_shape mc rc strict pp).
Proof.
  unfold check_img_shape.
  apply clean_bind; [apply clean_getitem|intros ms].
  apply clean_bind; [apply clean_unpack3|intros [[mc' mh] mw]].
  apply clean_bind; [apply clean_getitem|intros ts].
  apply clean_bind; [apply clean_unpack3|intros [[tc th] tw]].
  destruct (decide (mc' ≠ tc)); [done|].
  destruct (decide (mh ≠ th ∨ mw ≠ tw)); [|done]. by destruct strict.
Qed.

Lemma clean_check_frames mc rc model : clean (check_frames mc rc model).1.
Proof.
  unfold check_frames, clean, getitem.
  destruct (rc !! "context_frames") as [cf|]; [|done].
  destruct (decide (cf = VNone)) as [->|Hcf].
  - destruct (mc !! "context_frames") as [v|]; [|done]. simpl.
    destruct (<["context_frames":=v]> rc !! "pred_frames") as [pf|]; [|done].
    destruct (decide (pf = VNone)); [|done].
    by destruct (mc !! "pred_frames").
  - unfold value_ltb. destruct (as_number cf) as [x|]; [|done]. simpl.
    destruct (bool_decide (x < min_context_frames model)); [done|].
    destruct (rc !! "pred_frames") as [pf|]; [|done].
    destruct (decide (pf = VNone)); [|done].
    by destruct (mc !! "pred_frames").
Qed.

(** C9.  With both value ranges present: if they differ, a strict call
    raises the value-range error and leaves [run_config] alone, and a
    call that is not strict and returns has put exactly one ScaleToModel,
    first, into the preprocessing sequence and exactly one ScaleToTest,
    first, into the postprocessing sequence, both built from the two
    ranges; if they are equal, the call does not raise the value-range
    error and what it returns holds neither transform. *)
Theorem value_range_adapters mc rc model strict mr tr :
  mc !! "tensor_value_range" = Some (VSeq mr) →
  rc !! "tensor_value_range" = Some (VSeq tr) →
  (mr ≠ tr → strict = true →
     check_model_compatibility mc rc model strict
     = (Raise (ValueError value_ranges_differ_msg), rc)) ∧
  (mr ≠ tr → strict = false →
     ∀ pre post rc',
       check_model_compatibility mc rc model strict = (OK (pre, post), rc') →
       ∃ to_model to_test pre' post',
         ScaleToModel.init mr tr = OK to_model ∧
         ScaleToTest.init mr tr = OK to_test ∧
         pre = TScaleToModel to_model :: pre' ∧
         post = TScaleToTest to_test :: post' ∧
         filter (fun t => is_ScaleToModel t = true) pre = [TScaleToModel to_model] ∧
         filter (fun t => is_ScaleToTest t = true) post = [TScaleToTest to_test]) ∧
  (mr = tr →
     (check_model_compatibility mc rc model strict).1
       ≠ Raise (ValueError value_ranges_differ_msg) ∧
     ∀ pre post rc',
       check_model_compatibility mc rc model strict = (OK (pre, post), rc') →
       filter (fun t => is_ScaleToModel t = true) pre = [] ∧
       filter (fun t => is_ScaleToTest t = true) post = []).
Proof.
  intros Hm Ht. pose proof (check_value_range_run mc rc strict ([], []) mr tr Hm Ht) as Hvr.
  split; [|split].
  - intros Hne ->. unfold check_model_compatibility. rewrite Hvr.
    by rewrite decide_True.
  - intros Hne -> pre post rc' Hrun.
    apply check_model_compatibility_inv in Hrun as (pp0 & Hpp0 & Hshape).
    rewrite Hvr, decide_True in Hpp0 by done.
    apply bind_inv in Hpp0 as (to_model & Hstm & Hpp0).
    apply bind_inv in Hpp0 as (to_test & Hstt & Hpp0).
    simplify_eq/=. exists to_model, to_test.
    apply check_img_shape_inv in Hshape as [?|(a & b & c & d & ?)]; simplify_eq/=.
    + by exists [], [].
    + by exists [TResize a b], [TResize c d].
  - intros <-. rewrite decide_False in Hvr by (by intros ?). split.
    + unfold check_model_compatibility. rewrite Hvr, bind_OK.
      pose proof (clean_check_actions mc rc model) as Ha.
      destruct (check_actions mc rc model) as [[]|e]; [|simpl; intros [= ->]; by apply Ha].
      rewrite bind_OK.
      pose proof (clean_check_img_shape mc rc strict ([], [])) as Hs.
      destruct (check_img_shape mc rc strict ([], [])) as [pp|e]; [|simpl; intros [= ->]; by apply Hs].
      pose proof (clean_check_frames mc rc model) as Hf.
      destruct (check_frames mc rc model) as [[[]|e] rc1]; [done|].
      simpl. intros [= ->]. by apply Hf.
    + intros pre post rc' Hrun.
      apply check_model_compatibility_inv in Hrun as (pp0 & Hpp0 & Hshape).
      rewrite Hvr in Hpp0. simplify_eq.
      apply check_img_shape_inv in Hshape as [?|(a & b & c & d & ?)]; by simplify_eq/=.
Qed.

Lemma value_range_adapters_witness :
  let model_config := example_config [Q2Qc (-1); Q2Qc 1] in
  let run_config := example_config [Q2Qc 0; Q2Qc 1] in
  let to_model :=
    {| ScaleToModel.m_min := Q2Qc (-1); ScaleToModel.m_max := Q2Qc 1;
       ScaleToModel.t_min := Q2Qc 0; ScaleToModel.t_max := Q2Qc 1 |} in
  let to_test :=
    {| ScaleToTest.m_min := Q2Qc (-1); ScaleToTest.m_max := Q2Qc 1;
       ScaleToTest.t_min := Q2Qc 0; ScaleToTest.t_max := Q2Qc 1 |} in
  check_model_compatibility model_config run_config example_model true
    = (Raise (ValueError value_ranges_differ_msg), run_config) ∧
  ScaleToModel.init [Q2Qc (-1); Q2Qc 1] [Q2Qc 0; Q2Qc 1] = OK to_model ∧
  ScaleToTest.init [Q2Qc (-1); Q2Qc 1] [Q2Qc 0; Q2Qc 1] = OK to_test ∧
  check_model_compatibility model_config run_config example_model false
    = (OK ([TScaleToModel to_model], [TScaleToTest to_test]), run_config) ∧
  filter (fun t => is_ScaleToModel t = true) [TScaleToModel to_model]
    = [TScaleToModel to_model] ∧
  check_model_compatibility run_config run_config example_model false
    = (OK ([], []), run_config).
Proof.
  intros model_config run_config to_model to_test.
  assert (Hne : [Q2Qc (-1); Q2Qc 1] ≠ [Q2Qc 0; Q2Qc 1]) by (vm_compute; discriminate).
  assert (Hloose_run :
    check_model_compatibility model_config run_config example_model false
    = (OK ([TScaleToModel to_model], [TScaleToTest to_test]), run_config))
    by (vm_compute; reflexivity).
  assert (Hequal_run :
    check_model_compatibility run_config run_config example_model false
    = (OK ([], []), run_config))
    by (vm_compute; reflexivity).
  destruct (value_range_adapters model_config run_config example_model true
              [Q2Qc (-1); Q2Qc 1] [Q2Qc 0; Q2Qc 1] eq_refl eq_refl) as (Hstrict & _ & _).
  destruct (value_range_adapters model_config run_config example_model false
              [Q2Qc (-1); Q2Qc 1] [Q2Qc 0; Q2Qc 1] eq_refl eq_refl) as (_ & Hloose & _).
  destruct (Hloose Hne eq_refl _ _ _ Hloose_run)
    as (tm & tt' & pre' & post' & Hm & Ht & Hpre & Hpost & Hcount & _).
  injection Hpre as <- <-. injection Hpost as <- <-.
  split; [exact (Hstrict Hne eq_refl)|].
  split; [exact Hm|]. split; [exact Ht|]. split; [exact Hloose_run|].
  split; [exact Hcount|exact Hequal_run].
Defined.

End utils_facts.

(** * More on the segmentation network *)

Module seg_model_more.
Import seg_model seg_model_spec result_facts seg_model_facts.
Local Open Scope Z_scope.

Lemma conv3_inv tr cin cout x y :
  Layer_forward tr (Conv2d cin cout 3 1 1) x = OK y →
  channels x = cin ∧ 1 <= height x ∧ 1 <= width x ∧
  y = NCHW (batch x) cout (height x) (width x).
Proof.
  destruct x as [b c h w]. simpl.
  destruct (decide (c ≠ cin)) as [|Hc]; [done|]. apply dec_stable in Hc.
  destruct (decide (h + 2 * 1 < 3 ∨ w + 2 * 1 < 3)) as [|Hs]; [done|].
  rewrite !window_same. intros [= <-]. repeat split; try done; lia.
Qed.

Lemma batch_norm_inv tr n x y :
  Layer_forward tr (BatchNorm2d n) x = OK y →
  channels x = n ∧ (tr = false ∨ batch x * height x * width x ≠ 1) ∧ y = x.
Proof.
  destruct x as [b c h w]. simpl.
  destruct (decide (c ≠ n)) as [|Hc]; [done|]. apply dec_stable in Hc.
  destruct tr; simpl.
  - destruct (bool_decide (b * h * w = 1)) eqn:Hbn; [done|].
    apply bool_decide_eq_false in Hbn. intros [= <-]. auto.
  - intros [= <-]. auto.
Qed.

Lemma DoubleConv_forward_returns tr cin cout x y :
  DoubleConv_forward tr (DoubleConv_init cin cout) x = OK y ↔
  channels x = cin ∧ 1 <= height x ∧ 1 <= width x ∧
  (tr = false ∨ batch x * height x * width x ≠ 1) ∧
  y = NCHW (batch x) cout (height x) (width x).
Proof.
  split.
  - unfold DoubleConv_forward, DoubleConv_init. cbn [conv Sequential_forward].
    intros H.
    apply bind_inv in H as (x1 & H1 & H). apply conv3_inv in H1 as (Hc & Hh & Hw & ->).
    apply bind_inv in H as (x2 & H2 & H). apply batch_norm_inv in H2 as (_ & Hbn & ->).
    apply bind_inv in H as (x3 & H3 & H). cbn in H3. injection H3 as <-.
    apply bind_inv in H as (x4 & H4 & H). apply conv3_inv in H4 as (_ & _ & _ & ->).
    apply bind_inv in H as (x5 & H5 & H). apply batch_norm_inv in H5 as (_ & _ & ->).
    apply bind_inv in H as (x6 & H6 & H). cbn in H6. injection H6 as <-.
    cbn in H. injection H as <-. simpl in *. done.
  - destruct x as [b c h w]. simpl. intros (-> & Hh & Hw & Hbn & ->).
    by apply DoubleConv_forward_shape.
Qed.


Lemma pool_inv tr x y :
  Layer_forward tr (MaxPool2d 2 2) x = OK y →
  2 <= height x ∧ 2 <= width x ∧
  y = NCHW (batch x) (channels x) (height x / 2) (width x / 2).
Proof.
  destruct x as [b c h w]. simpl. rewrite !window_half.
  destruct (decide (h / 2 < 1 ∨ w / 2 < 1)) as [|Hs]; [done|].
  intros [= <-]. split; [|split; [|done]].
  - destruct (decide (2 <= h)); [done|]. exfalso. apply Hs. left.
    apply Z.div_lt_upper_bound; lia.
  - destruct (decide (2 <= w)); [done|]. exfalso. apply Hs. right.
    apply Z.div_lt_upper_bound; lia.
Qed.

Lemma up_conv_inv tr f x y :
  Layer_forward tr (ConvTranspose2d (f * 2) f 2 2) x = OK y →
  channels x = f * 2 ∧ 1 <= height x ∧ 1 <= width x ∧
  y = NCHW (batch x) f (2 * height x) (2 * width x).
Proof.
  destruct x as [b c h w]. simpl.
  destruct (decide (c ≠ f * 2)) as [|Hc]; [done|]. apply dec_stable in Hc.
  destruct (decide (h < 1 ∨ w < 1)) as [|Hs]; [done|].
  rewrite !transposed_double. intros [= <-]. repeat split; try done; lia.
Qed.

Lemma double_half_bound (n : nat) h :
  2 <= h → (n ≠ 0%nat → 2 ^ Z.of_nat n <= h / 2) → 2 ^ Z.of_nat (S n) <= h.
Proof.
  intros Hh Hn. destruct n as [|n]; [simpl; lia|].
  rewrite pow2_succ. specialize (Hn ltac:(done)).
  pose proof (Z.mul_div_le h 2 ltac:(lia)). lia.
Qed.

(** What a finished encoder says about its input and its output. *)
Lemma down_loop_inv m fs : ∀ cin x sk x' sk',
  pool m = MaxPool2d 2 2 →
  down_loop m (make_downs cin fs) x sk = OK (x', sk') →
  (fs ≠ [] → 2 ^ Z.of_nat (length fs) <= height x ∧
             2 ^ Z.of_nat (length fs) <= width x ∧ channels x = cin) ∧
  channels x' = default (channels x) (last fs) ∧
  batch x' = batch x ∧
  ∃ new, sk' = sk ++ new ∧ Forall2 (fun f s => channels s = f) fs new.
Proof.
  induction fs as [|f rest IH]; intros cin x sk x' sk' Hpool H.
  - simpl in H. injection H as <- <-. split; [done|]. split; [done|]. split; [done|].
    exists []. by rewrite app_nil_r.
  - cbn [make_downs down_loop] in H.
    apply bind_inv in H as (x1 & H1 & H).
    apply DoubleConv_forward_returns in H1 as (Hc & Hh & Hw & _ & ->).
    apply bind_inv in H as (x2 & H2 & H). rewrite Hpool in H2.
    apply pool_inv in H2 as (Hh2 & Hw2 & ->). cbn [height width batch channels] in *.
    apply IH in H as (Hsz & Hch & Hb & new & -> & Hnew); [|done].
    cbn [height width batch channels] in *.
    split; [|split; [|split]].
    + intros _. split; [|split; [|done]].
      * apply double_half_bound; [done|]. intros Hn. apply Hsz.
        intros ->. done.
      * apply double_half_bound; [done|]. intros Hn. apply Hsz.
        intros ->. done.
    + by rewrite Hch, last_default_cons.
    + done.
    + exists (NCHW (batch x) f (height x) (width x) :: new).
      split; [by rewrite <- app_assoc|]. by constructor.
Qed.

(** A network [__init__] returned has a non-empty feature list and the
    fields the loops fill in. *)
Lemma UNet_init_inv cin K fs m :
  UNet_init cin K fs = OK m →
  ∃ f0 fl, head fs = Some f0 ∧ last fs = Some fl ∧
    m = {| downs := make_downs cin fs;
           ups := make_ups (reverse fs);
           pool := MaxPool2d 2 2;
           bottleneck := DoubleConv_init fl (fl * 2);
           final_conv := Conv2d f0 K 1 1 0;
           training := true |}.
Proof.
  intros H. destruct fs as [|f rest]; [done|].
  destruct (last (f :: rest)) as [fl|] eqn:Hl; [|by apply last_None in Hl].
  exists f, fl. split; [done|]. split; [done|].
  rewrite (UNet_init_fields cin K (f :: rest) f fl) in H by done. by injection H as <-.
Qed.



Lemma index_inv {A} (l : list A) i x : index l i = OK x → l !! i = Some x.
Proof. unfold index. by destruct (l !! i) as [a|]; intros [= <-]. Qed.

(** A decoder that finishes was handed, at every stage, twice the
    channels of the level it restores. *)
Lemma up_loop_chain m : ∀ rs sks pre_ups pre_sk x log out,
  ups m = pre_ups ++ make_ups rs →
  length pre_ups = (2 * length pre_sk)%nat →
  Forall2 (fun f s => channels s = f) rs sks →
  up_loop m (pre_sk ++ sks)
    (map (fun j => 2 * j)%nat (seq (length pre_sk) (length rs))) x log = OK out →
  chain (channels x) rs.
Proof.
  intros rs. induction rs as [|f rs IH];
    intros sks pre_ups pre_sk x log out Hups Hlen Hsk Hrun; [done|].
  inversion Hsk as [|f' s rs' sks' Hs Hrest]; subst.
  cbn [length seq map up_loop make_ups] in *.
  apply bind_inv in Hrun as (up & Hup & Hrun).
  apply index_inv in Hup. rewrite Hups, list_lookup_middle in Hup by lia.
  injection Hup as <-.
  apply bind_inv in Hrun as (x1 & Hx1 & Hrun). cbn [Module_forward] in Hx1.
  apply up_conv_inv in Hx1 as (Hc & Hh & Hw & ->).
  apply bind_inv in Hrun as (s' & Hs' & Hrun). apply index_inv in Hs'.
  replace (2 * length pre_sk / 2)%nat with (length pre_sk) in Hs'
    by (rewrite Nat.mul_comm, Nat.div_mul; lia).
  rewrite list_lookup_middle in Hs' by done. injection Hs' as <-.
  apply bind_inv in Hrun as (x2 & Hx2 & Hrun).
  assert (Hx2c : channels x2 = channels s).
  { destruct (decide _) in Hx2.
    - unfold TF_resize in Hx2. destruct (decide _) in Hx2; [done|].
      by injection Hx2 as <-.
    - by injection Hx2 as <-. }
  apply bind_inv in Hrun as (cat & Hcat & Hrun).
  unfold torch_cat1 in Hcat. destruct (decide _) in Hcat; [|done]. injection Hcat as <-.
  apply bind_inv in Hrun as (up' & Hup' & Hrun). apply index_inv in Hup'.
  rewrite Hups in Hup'.
  replace (pre_ups ++ Single (ConvTranspose2d (channels s * 2) (channels s) 2 2)
             :: Double (DoubleConv_init (channels s * 2) (channels s)) :: make_ups rs)
    with ((pre_ups ++ [Single (ConvTranspose2d (channels s * 2) (channels s) 2 2)])
             ++ Double (DoubleConv_init (channels s * 2) (channels s)) :: make_ups rs)
    in Hup' by (by rewrite <- app_assoc).
  rewrite list_lookup_middle in Hup' by (rewrite length_app; simpl; lia).
  injection Hup' as <-.
  apply bind_inv in Hrun as (x3 & Hx3 & Hrun). cbn [Module_forward] in Hx3.
  apply DoubleConv_forward_returns in Hx3 as (_ & _ & _ & _ & ->).
  split; [done|].
  replace (pre_sk ++ s :: sks') with ((pre_sk ++ [s]) ++ sks') in Hrun
    by (by rewrite <- app_assoc).
  replace (S (length pre_sk)) with (length (pre_sk ++ [s])) in Hrun
    by (rewrite length_app; simpl; lia).
  eapply (IH sks' ((pre_ups ++ [Single (ConvTranspose2d (channels s * 2) (channels s) 2 2)])
                     ++ [Double (DoubleConv_init (channels s * 2) (channels s))])
             (pre_sk ++ [s])) in Hrun; try done.
  - by rewrite Hups, <- !app_assoc.
  - rewrite !length_app. simpl. lia.
Qed.

Lemma chain_widths_double fs : ∀ fl,
  last fs = Some fl → chain (fl * 2) (reverse fs) → widths_double fs.
Proof.
  induction fs as [|f rest IH]; intros fl Hl Hc; [done|].
  destruct rest as [|g rest]; [done|].
  rewrite reverse_cons in Hc. apply chain_app in Hc as [Hc Hf].
  rewrite last_cons_cons in Hl. rewrite last_reverse in Hf. simpl in Hf.
  split; [by destruct Hf|]. by eapply IH.
Qed.

(** [__init__] accepts any non-empty feature list, but a forward pass that
    returns, on whatever input and in either mode, belongs to a network
    whose feature widths double from each level to the next: the decoder
    hands each stage twice the width of that stage (transposed convolution
    of [feature * 2] channels, concatenation with the skip connection), so
    with any other list every forward pass raises. *)
Theorem forward_needs_doubling_widths cin K fs m tr x y :
  UNet_init cin K fs = OK m →
  forward (set_training tr m) x = OK y →
  widths_double fs.
Proof.
  intros Hinit Hrun.
  destruct (UNet_init_inv _ _ _ _ Hinit) as (f0 & fl & Hhead & Hlast & ->).
  unfold forward in Hrun.
  destruct (forward_log _ _) as [[y' log]|e] eqn:Hlog; [|done].
  unfold forward_log, set_training in Hlog.
  cbn [downs ups pool bottleneck final_conv training] in Hlog.
  apply bind_inv in Hlog as ([x1 sk] & Hdown & Hlog).
  apply down_loop_inv in Hdown as (_ & Hch & _ & new & Hsk & Hnew); [|done].
  apply bind_inv in Hlog as (x2 & Hbott & Hlog).
  apply DoubleConv_forward_returns in Hbott as (_ & _ & _ & _ & ->).
  apply bind_inv in Hlog as ([x3 log'] & Hup & _).
  rewrite range_step2_ups in Hup.
  simpl in Hsk. subst sk.
  eapply (up_loop_chain _ (reverse fs) (reverse new) [] []) in Hup.
  - cbn [channels] in Hup. by eapply chain_widths_double.
  - done.
  - done.
  - by apply Forall2_reverse.
Qed.

Lemma forward_needs_doubling_widths_witness : widths_double [64; 128; 256; 512].
Proof.
  eapply (forward_needs_doubling_widths 3 22 [64; 128; 256; 512] _ false
            (NCHW 1 3 32 32) (NCHW 1 22 32 32)).
  - reflexivity.
  - reflexivity.
Defined.

(** An input whose number of channels is not the [in_channels] the
    network was built for makes the forward pass raise at the first
    convolution, in training and in evaluation mode, whatever its batch
    and spatial size. *)
Theorem forward_wrong_channels cin K fs m tr x :
  UNet_init cin K fs = OK m →
  channels x ≠ cin →
  forward (set_training tr m) x
  = Raise (RuntimeError "expected input to have in_channels channels").
Proof.
  intros Hinit Hc.
  destruct (UNet_init_inv _ _ _ _ Hinit) as (f0 & fl & Hhead & Hlast & ->).
  destruct fs as [|f rest]; [done|]. destruct x as [b c h w].
  unfold forward, forward_log, set_training. cbn. cbn in Hc.
  by destruct (decide (c ≠ cin)).
Qed.

Lemma forward_wrong_channels_witness :
  ∃ m, UNet_init 3 22 [64; 128; 256; 512] = OK m ∧
    forward (set_training true m) (NCHW 1 1 64 64)
    = Raise (RuntimeError "expected input to have in_channels channels").
Proof.
  eexists. split; [reflexivity|].
  match goal with
  | |- forward (set_training _ ?m) _ = _ =>
      apply (forward_wrong_channels 3 22 [64; 128; 256; 512] m true (NCHW 1 1 64 64))
  end.
  - reflexivity.
  - simpl. lia.
Defined.

End seg_model_more.

(** * More on the data set *)

Module dataset_more.
Import dataset dataset_spec dataset_examples result_facts dataset_facts.

(** ** The order of [sorted] *)

Lemma ascii_compare_trans a b c o :
  Ascii.compare a b = o → Ascii.compare b c = o → Ascii.compare a c = o.
Proof.
  unfold Ascii.compare. intros H1 H2. destruct o.
  - apply N.compare_eq_iff in H1. apply N.compare_eq_iff in H2.
    apply N.compare_eq_iff. congruence.
  - apply N.compare_lt_iff in H1. apply N.compare_lt_iff in H2.
    apply N.compare_lt_iff. by eapply N.lt_trans.
  - apply N.compare_gt_iff in H1. apply N.compare_gt_iff in H2.
    apply N.compare_gt_iff. by eapply N.lt_trans.
Qed.

Lemma string_compare_refl s : String.compare s s = Eq.
Proof.
  induction s as [|a s IH]; [done|]. simpl.
  unfold Ascii.compare. by rewrite N.compare_refl.
Qed.

Lemma string_compare_trans o : ∀ s1 s2 s3,
  String.compare s1 s2 = o → String.compare s2 s3 = o → String.compare s1 s3 = o.
Proof.
  induction s1 as [|a s1 IH]; intros [|b s2] [|c s3]; simpl; try congruence.
  destruct (Ascii.compare a b) eqn:Hab; destruct (Ascii.compare b c) eqn:Hbc;
    intros H1 H2; subst; try congruence.
  - rewrite (ascii_compare_trans _ _ _ _ Hab Hbc). by eapply IH.
  - apply Ascii.compare_eq_iff in Hab as ->. by rewrite Hbc.
  - apply Ascii.compare_eq_iff in Hab as ->. by rewrite Hbc.
  - apply Ascii.compare_eq_iff in Hbc as ->. by rewrite Hab.
  - by rewrite (ascii_compare_trans _ _ _ _ Hab Hbc).
  - apply Ascii.compare_eq_iff in Hbc as ->. by rewrite Hab.
  - by rewrite (ascii_compare_trans _ _ _ _ Hab Hbc).
Qed.

Lemma str_le_trans : Transitive str_le.
Proof.
  intros a b c. unfold str_le, String.leb. intros Hab Hbc.
  destruct (String.compare a b) eqn:H1; [| |done].
  - apply String.compare_eq_iff in H1 as ->. done.
  - destruct (String.compare b c) eqn:H2; [| |done].
    + apply String.compare_eq_iff in H2 as <-. by rewrite H1.
    + by rewrite (string_compare_trans Lt _ _ _ H1 H2).
Qed.

Lemma str_le_antisym : AntiSymm (=) str_le.
Proof. intros a b. unfold str_le. apply String.leb_antisym. Qed.

(** The order in which [os.listdir] hands out the names of a directory
    does not matter: [sorted] gives the same list for any two listings
    that are permutations of each other, so [image_ids] and [mask_ids]
    depend on the names in the directories only. *)
Theorem sorted_listing_order (l1 l2 : list string) :
  l1 ≡ₚ l2 → sorted l1 = sorted l2.
Proof.
  intros Hp.
  apply (@Sorted_unique _ str_le str_le_trans str_le_antisym).
  - apply sorted_is_sorted.
  - apply sorted_is_sorted.
  - by rewrite !sorted_permutation.
Qed.

Lemma sorted_listing_order_witness :
  sorted ["b.png"; "a.png"; "c.png"] = sorted ["c.png"; "b.png"; "a.png"].
Proof.
  apply sorted_listing_order.
  apply (Permutation_trans (l' := ["b.png"; "c.png"; "a.png"])).
  - apply perm_skip, perm_swap.
  - apply (Permutation_trans (l' := ["c.png"; "b.png"; "a.png"])); [apply perm_swap|done].
Defined.

(** ** [to_torch] *)

Lemma flat_map_rows_length {A} (g : nat → list A) m :
  (∀ a, length (g a) = m) → ∀ n s, length (flat_map g (seq s n)) = n * m.
Proof.
  intros Hg n. induction n as [|n IH]; intros s; [done|].
  simpl. by rewrite length_app, Hg, IH.
Qed.

Lemma flat_map_rows_lookup {A} (g : nat → list A) m :
  (∀ a, length (g a) = m) →
  ∀ n s a b, a < n → b < m → flat_map g (seq s n) !! (a * m + b) = g (s + a) !! b.
Proof.
  intros Hg n. induction n as [|n IH]; intros s a b Ha Hb; [lia|].
  simpl. destruct a as [|a].
  - rewrite lookup_app_l by (rewrite Hg; lia). by rewrite Nat.add_0_r.
  - rewrite lookup_app_r by (rewrite Hg; simpl; lia). rewrite Hg.
    replace (S a * m + b - m) with (a * m + b) by (simpl; lia).
    rewrite IH by lia. by replace (s + S a) with (S s + a) by lia.
Qed.


Lemma to_torch_lookup x t h w c :
  to_torch x = OK t → shape x = [h; w; c] → length (data x) = h * w * c →
  length (data t) = c * h * w ∧
  ∀ k i j, k < c → i < h → j < w →
    data t !! ((k * h + i) * w + j) = data x !! ((i * w + j) * c + k).
Proof.
  intros Ht Hs Hlen.
  destruct (to_torch_inv _ _ Ht) as (h' & w' & c' & Hs' & _ & _ & Hd).
  rewrite Hs in Hs'. injection Hs' as <- <- <-. rewrite Hd.
  set (row k i := map (fun j => nth ((i * w + j) * c + k) (data x) 0%Z) (seq 0 w)).
  set (plane k := flat_map (row k) (seq 0 h)).
  assert (Hrow : ∀ k i, length (row k i) = w)
    by (intros; unfold row; by rewrite length_map, length_seq).
  assert (Hplane : ∀ k, length (plane k) = h * w)
    by (intros k; unfold plane; by rewrite (flat_map_rows_length _ w)).
  split.
  - rewrite (flat_map_rows_length plane (h * w)) by done. nia.
  - intros k i j Hk Hi Hj.
    replace ((k * h + i) * w + j) with (k * (h * w) + (i * w + j))
      by (rewrite Nat.mul_add_distr_r, <- Nat.mul_assoc; lia).
    assert (Hij : i * w + j < h * w).
    { assert (S i * w ≤ h * w) by (apply Nat.mul_le_mono_r; lia). simpl in *. lia. }
    assert (Hijk : (i * w + j) * c + k < h * w * c).
    { assert (S (i * w + j) * c ≤ h * w * c) by (apply Nat.mul_le_mono_r; lia).
      simpl in *. lia. }
    rewrite (flat_map_rows_lookup plane (h * w)) by done.
    unfold plane. rewrite (flat_map_rows_lookup (row k) w) by done.
    unfold row. simpl. rewrite list_lookup_fmap, lookup_seq_lt by done. simpl.
    rewrite nth_lookup.
    destruct (lookup_lt_is_Some_2 (data x) ((i * w + j) * c + k)) as [v Hv]; [lia|].
    by rewrite Hv.
Qed.

(** For an array of shape (h, w, c) that holds h*w*c elements, the
    tensor [to_torch] returns has as many elements, and its element at
    (k, i, j) is the element of the array at (i, j, k). *)
Theorem to_torch_transposes x t h w c :
  to_torch x = OK t → shape x = [h; w; c] → length (data x) = h * w * c →
  length (data t) = c * h * w ∧
  ∀ k i j, k < c → i < h → j < w →
    data t !! ((k * h + i) * w + j) = data x !! ((i * w + j) * c + k).
Proof. exact (to_torch_lookup x t h w c). Qed.

Lemma to_torch_transposes_witness :
  ∃ t, to_torch {| shape := [1; 2; 3]; dt := uint8; data := [1; 2; 3; 4; 5; 6]%Z |} = OK t ∧
       data t = [1; 4; 2; 5; 3; 6]%Z ∧
       data t !! 1 = Some 4%Z.
Proof.
  eexists. split; [reflexivity|]. split; [reflexivity|].
  destruct (to_torch_transposes
              {| shape := [1; 2; 3]; dt := uint8; data := [1; 2; 3; 4; 5; 6]%Z |}
              _ 1 2 3 eq_refl eq_refl eq_refl) as [_ H].
  exact (H 0 0 1 ltac:(lia) ltac:(lia) ltac:(lia)).
Defined.

(** ** [__init__] and [__getitem__] *)

(** What a data set that [__init__] returned was built from. *)
Lemma SynpickDataset_init_inv fs images_dir masks_dir classes aug prep ds :
  SynpickDataset_init fs images_dir masks_dir classes aug prep = OK ds →
  ∃ idir mdir il ml cs cv,
    images_dir = VStr idir ∧ masks_dir = VStr mdir ∧
    os_listdir fs idir = OK il ∧ os_listdir fs mdir = OK ml ∧
    iterate classes = OK cs ∧ class_values_of cs = OK cv ∧
    ds = {| image_ids := sorted il; mask_ids := sorted ml;
            images_fps := os_path_join idir <$> sorted il;
            masks_fps := os_path_join mdir <$> sorted ml;
            class_values := cv; augmentation := aug; preprocessing := prep |}.
Proof.
  unfold SynpickDataset_init. intros H.
  apply bind_inv in H as (idir & Hi & H).
  apply bind_inv in H as (il & Hil & H).
  apply bind_inv in H as (mdir & Hm & H).
  apply bind_inv in H as (ml & Hml & H).
  apply bind_inv in H as (cs & Hcs & H).
  apply bind_inv in H as (cv & Hcv & H).
  injection H as <-.
  destruct images_dir; simplify_eq/=. destruct masks_dir; simplify_eq/=.
  by exists idir, mdir, il, ml, cs, cv.
Qed.

Lemma swap_first_third_length l : length (swap_first_third l) = length l.
Proof.
  assert (H : ∀ n l, length l ≤ n → length (swap_first_third l) = length l).
  { intros n. induction n as [|n IH]; intros k Hk.
    - destruct k; [done|simpl in Hk; lia].
    - destruct k as [|b [|g [|r rest]]]; try done. simpl. rewrite IH; [done|].
      simpl in Hk. lia. }
  by apply (H (length l)).
Qed.

Lemma swap_first_third_lookup n : ∀ l p q,
  length l = n * 3 → p < n → q < 3 →
  swap_first_third l !! (p * 3 + q) = l !! (p * 3 + (2 - q)).
Proof.
  induction n as [|n IH]; intros l p q Hlen Hp Hq; [lia|].
  destruct l as [|b [|g [|r rest]]]; simplify_eq/=.
  destruct p as [|p].
  - destruct q as [|[|[|q]]]; simpl; done || lia.
  - replace (S p * 3 + q) with (S (S (S (p * 3 + q)))) by lia.
    replace (S p * 3 + (2 - q)) with (S (S (S (p * 3 + (2 - q))))) by lia.
    simpl. apply IH; lia.
Qed.

(** Without an augmentation, the image tensor of an item that
    [__getitem__] returns is float32 of shape (3, rows, cols) for the
    picture file at [images_fps[i]], and its channel k at (r, c) is channel
    2 - k of the stored blue-green-red picture at (r, c): the image comes
    channel first and in red-green-blue order. *)
Theorem getitem_image_layout fs self i image mask :
  SynpickDataset_getitem fs self i = OK (image, mask) →
  truthy (augmentation self) = false →
  ∃ image_fp f,
    py_index (images_fps self) i = OK image_fp ∧
    lookup_file fs image_fp = Some (Picture f) ∧
    shape image = [3; rows f; cols f] ∧ dt image = float32 ∧
    (length (bgr f) = rows f * cols f * 3 →
     ∀ k r c, k < 3 → r < rows f → c < cols f →
       data image !! ((k * rows f + r) * cols f + c)
       = bgr f !! ((r * cols f + c) * 3 + (2 - k))).
Proof.
  unfold SynpickDataset_getitem. intros H Hno.
  apply bind_inv in H as (image_fp & Hifp & H).
  apply bind_inv in H as (img & Himg & H).
  apply bind_inv in H as (mask_fp & Hmfp & H).
  rewrite Hno in H. rewrite bind_OK in H.
  apply bind_inv in H as (timg & Htimg & H).
  apply bind_inv in H as (tmsk & Htmsk & H). simplify_eq.
  exists image_fp. unfold cv2_imread, cv2_cvtColor_BGR2RGB in Himg.
  destruct (lookup_file fs image_fp) as [[f|?]|]; simplify_eq/=.
  exists f. split; [done|]. split; [done|].
  pose proof (to_torch_inv _ _ Htimg) as (h & w & c & Hs & Hts & Hdt & _).
  simpl in Hs. injection Hs as <- <- <-.
  split; [done|]. split; [done|].
  intros Hlen k r c Hk Hr Hc.
  destruct (to_torch_lookup _ _ (rows f) (cols f) 3 Htimg eq_refl) as [_ Hix].
  { simpl. by rewrite swap_first_third_length. }
  rewrite Hix by done. simpl.
  apply (swap_first_third_lookup (rows f * cols f)); [done| |done].
  assert (S r * cols f ≤ rows f * cols f) by (apply Nat.mul_le_mono_r; lia).
  simpl in *. lia.
Qed.

Lemma getitem_image_layout_witness :
  ∃ image mask,
    SynpickDataset_getitem example_store example_dataset 0 = OK (image, mask) ∧
    shape image = [3; 2; 2] ∧ dt image = float32.
Proof.
  destruct (SynpickDataset_getitem example_store example_dataset 0)
    as [[image mask]|] eqn:Hget; [|by vm_compute in Hget].
  exists image, mask. split; [reflexivity|].
  destruct (getitem_image_layout _ _ _ _ _ Hget eq_refl)
    as (image_fp & f & Hfp & Hfile & Hshape & Hdt & _).
  vm_compute in Hfp. injection Hfp as <-.
  vm_compute in Hfile. injection Hfile as <-.
  split; [exact Hshape|exact Hdt].
Defined.

(** [__len__] counts the images only.  When the image directory holds
    more files than the mask directory, an index below [__len__] whose
    picture can be read but which has no mask at its position makes
    [__getitem__] raise IndexError. *)
Theorem getitem_beyond_masks fs images_dir masks_dir classes aug prep ds (i : nat)
    image_fp img :
  SynpickDataset_init fs images_dir masks_dir classes aug prep = OK ds →
  length (mask_ids ds) ≤ i →
  images_fps ds !! i = Some image_fp →
  cv2_cvtColor_BGR2RGB (cv2_imread fs image_fp IMREAD_COLOR) = OK img →
  i < SynpickDataset_len ds ∧
  SynpickDataset_getitem fs ds (Z.of_nat i)
  = Raise (IndexError "list index out of range").
Proof.
  intros Hinit Hmasks Himg Hread.
  destruct (SynpickDataset_init_inv _ _ _ _ _ _ _ Hinit)
    as (idir & mdir & il & ml & cs & cv & _ & _ & _ & _ & _ & _ & ->).
  cbn [mask_ids images_fps] in *. split.
  - unfold SynpickDataset_len. cbn [image_ids].
    apply lookup_lt_Some in Himg. by rewrite length_fmap in Himg.
  - unfold SynpickDataset_getitem. cbn [images_fps masks_fps].
    rewrite (py_index_nat _ _ _ Himg), bind_OK, Hread, bind_OK.
    unfold py_index. destruct (decide (0 <= Z.of_nat i)%Z) as [_|?]; [|lia].
    unfold index. rewrite Nat2Z.id, lookup_ge_None_2; [done|].
    by rewrite length_fmap.
Qed.

Lemma getitem_beyond_masks_witness :
  ∃ ds, SynpickDataset_init mismatched_store (VStr "masks") (VStr "images")
          (VList ["object_1"]) VNone VNone = OK ds ∧
        SynpickDataset_len ds = 3 ∧
        SynpickDataset_getitem mismatched_store ds 2
        = Raise (IndexError "list index out of range").
Proof.
  destruct (SynpickDataset_init mismatched_store (VStr "masks") (VStr "images")
              (VList ["object_1"]) VNone VNone) as [ds|] eqn:Hds;
    [|by vm_compute in Hds].
  exists ds. pose proof Hds as Heq. vm_compute in Heq. injection Heq as Heq.
  edestruct (getitem_beyond_masks mismatched_store (VStr "masks") (VStr "images")
               (VList ["object_1"]) VNone VNone ds 2) as [_ Hget].
  - exact Hds.
  - rewrite <- Heq. vm_compute. lia.
  - rewrite <- Heq. reflexivity.
  - vm_compute. reflexivity.
  - split; [reflexivity|]. split; [by rewrite <- Heq|exact Hget].
Defined.

Lemma py_index_from_end {A} (l : list A) (k : nat) :
  1 ≤ k ≤ length l → py_index l (- Z.of_nat k) = index l (length l - k).
Proof.
  intros Hk. unfold py_index.
  destruct (decide (0 <= - Z.of_nat k)%Z) as [?|_]; [lia|].
  destruct (decide (- Z.of_nat (length l) <= - Z.of_nat k)%Z) as [_|?]; [|lia].
  f_equal. lia.
Qed.

(** [__getitem__] takes Python's negative indices: for 1 <= k up to the
    lengths of both path lists, index -k reads the k-th image path from
    the end of [images_fps] and the k-th mask path from the end of
    [masks_fps], each from the end of its own list (so with directories of
    different sizes the two are not at the same sorted position). *)
Theorem getitem_negative_index fs self (k : nat) image_fp mask_fp :
  1 ≤ k → k ≤ length (images_fps self) → k ≤ length (masks_fps self) →
  images_fps self !! (length (images_fps self) - k) = Some image_fp →
  masks_fps self !! (length (masks_fps self) - k) = Some mask_fp →
  SynpickDataset_getitem fs self (- Z.of_nat k)
  = read_pair fs (augmentation self) image_fp mask_fp.
Proof.
  intros Hk Hki Hkm Hi Hm. unfold SynpickDataset_getitem, read_pair.
  rewrite !py_index_from_end by lia. unfold index. rewrite Hi, Hm.
  rewrite bind_OK. destruct (cv2_cvtColor_BGR2RGB _) as [img|e]; [|done].
  by rewrite !bind_OK.
Qed.

Lemma getitem_negative_index_witness :
  ∃ ds, SynpickDataset_init mismatched_store (VStr "images") (VStr "masks")
          (VList ["object_1"]) VNone VNone = OK ds ∧
        SynpickDataset_getitem mismatched_store ds (-1)
        = read_pair mismatched_store VNone (os_path_join "images" "b.png")
            (os_path_join "masks" "d.png").
Proof.
  destruct (SynpickDataset_init mismatched_store (VStr "images") (VStr "masks")
              (VList ["object_1"]) VNone VNone) as [ds|] eqn:Hds;
    [|by vm_compute in Hds].
  exists ds. split; [reflexivity|].
  vm_compute in Hds. injection Hds as <-.
  match goal with
  | |- SynpickDataset_getitem _ ?d _ = _ =>
      apply (getitem_negative_index mismatched_store d 1); simpl; done || lia
  end.
Defined.

Lemma list_index_inv x l i :
  list_index x l = OK i → l !! i = Some x.
Proof.
  revert i. induction l as [|y l IH]; intros i; [done|]. simpl.
  destruct (String.eqb x y) eqn:Heq.
  - intros [= <-]. apply String.eqb_eq in Heq. by subst.
  - destruct (list_index x l) as [j|]; [|done]. simpl. intros [= <-]. by apply IH.
Qed.

Lemma CLASSES_lookup i name :
  CLASSES !! i = Some name → i < 21 ∧ name = "object_" +:+ pretty (i + 1).
Proof.
  unfold CLASSES, NUM_CLASSES. rewrite list_lookup_fmap. intros H.
  destruct (seq 1 (22 - 1) !! i) as [v|] eqn:Hv; [|done].
  apply lookup_seq in Hv as [-> Hlt]. simpl in H. injection H as <-.
  split; [simpl in Hlt; lia|]. by rewrite Nat.add_comm.
Qed.

Lemma class_values_of_inv cs vs :
  class_values_of cs = OK vs →
  Forall2 (fun cls v => 1 ≤ v ≤ 21 ∧ lower cls = "object_" +:+ pretty v) cs vs.
Proof.
  revert vs. induction cs as [|c cs IH]; intros vs.
  - intros [= <-]. constructor.
  - cbn [class_values_of]. intros H.
    apply bind_inv in H as (i & Hi & H).
    apply bind_inv in H as (vs' & Hvs & H). injection H as <-.
    apply list_index_inv, CLASSES_lookup in Hi as [Hlt Hname].
    constructor; [|by apply IH]. split; [lia|done].
Qed.

(** The class values [__init__] computes are between 1 and 21, one per
    class name and in the order of the names, and a name with value v is,
    in lower case, object_v: value 0 (the background) is never among
    them. *)
Theorem class_values_range cs vs :
  class_values_of cs = OK vs →
  Forall2 (fun cls v => 1 ≤ v ≤ 21 ∧ lower cls = "object_" +:+ pretty v) cs vs.
Proof. exact (class_values_of_inv cs vs). Qed.

Lemma class_values_range_witness :
  Forall2 (fun cls v => 1 ≤ v ≤ 21 ∧ lower cls = "object_" +:+ pretty v)
    ["Object_3"; "OBJECT_21"] [3; 21].
Proof. apply class_values_range. reflexivity. Defined.

(** A single class name that, in lower case, is not one of [CLASSES]
    makes the computation of the class values, and with it [__init__],
    raise, wherever it is in the list. *)
Theorem class_values_unknown cs cls :
  cls ∈ cs → lower cls ∉ CLASSES → raises (class_values_of cs).
Proof.
  intros Hin Hno. destruct (class_values_of cs) as [vs|e] eqn:Hvs; [|done].
  exfalso. apply class_values_of_inv in Hvs.
  apply list_elem_of_lookup in Hin as [i Hi].
  destruct (Forall2_lookup_l _ _ _ _ _ Hvs Hi) as (v & _ & Hv & Hname).
  apply Hno. rewrite Hname. unfold CLASSES, NUM_CLASSES.
  apply list_elem_of_fmap. exists v. split; [done|].
  apply elem_of_seq. simpl. lia.
Qed.

Lemma class_values_unknown_witness :
  raises (class_values_of ["object_1"; "background"]).
Proof.
  apply (class_values_unknown _ "background").
  - apply list_elem_of_In. simpl. auto.
  - intros H. apply list_elem_of_In in H. vm_compute in H.
    repeat (destruct H as [H|H]; [discriminate H|]). exact H.
Defined.

(** When the path at [images_fps[i]] does not hold a picture (no file, or
    a file that is no image), [cv2.imread] answers None without raising and
    [__getitem__] raises the error of [cv2.cvtColor] on an empty source,
    before the mask is looked at. *)
Theorem getitem_missing_image fs self i image_fp :
  py_index (images_fps self) i = OK image_fp →
  (∀ f, lookup_file fs image_fp ≠ Some (Picture f)) →
  SynpickDataset_getitem fs self i
  = Raise (CvError "(-215:Assertion failed) !_src.empty() in function 'cvtColor'").
Proof.
  intros Hfp Hno. unfold SynpickDataset_getitem. rewrite Hfp, bind_OK.
  unfold cv2_imread. destruct (lookup_file fs image_fp) as [[f|?]|] eqn:Hf; try done.
  by destruct (Hno f).
Qed.

Lemma getitem_missing_image_witness :
  SynpickDataset_getitem ∅ example_dataset 0
  = Raise (CvError "(-215:Assertion failed) !_src.empty() in function 'cvtColor'").
Proof.
  apply (getitem_missing_image ∅ example_dataset 0 (os_path_join "images" "a.png")).
  - reflexivity.
  - intros f H. vm_compute in H. discriminate H.
Defined.

(** When the picture can be read but the path at [masks_fps[i]] does not
    hold one, and there is no augmentation, [__getitem__] raises the
    ValueError of [transpose(2, 0, 1)]: [np.expand_dims] has made an array
    of rank 1 of the None that [cv2.imread] returned. *)
Theorem getitem_missing_mask fs self i image_fp mask_fp f :
  py_index (images_fps self) i = OK image_fp →
  lookup_file fs image_fp = Some (Picture f) →
  py_index (masks_fps self) i = OK mask_fp →
  (∀ g, lookup_file fs mask_fp ≠ Some (Picture g)) →
  truthy (augmentation self) = false →
  SynpickDataset_getitem fs self i = Raise (ValueError "axes don't match array").
Proof.
  intros Hifp Hf Hmfp Hno Haug. unfold SynpickDataset_getitem.
  rewrite Hifp, bind_OK. unfold cv2_imread. rewrite Hf. cbn.
  rewrite Hmfp. cbn. rewrite Haug. cbn.
  destruct (lookup_file fs mask_fp) as [[g|?]|] eqn:Hg; try done.
  by destruct (Hno g).
Qed.

Lemma getitem_missing_mask_witness :
  SynpickDataset_getitem images_only_store example_dataset 0
  = Raise (ValueError "axes don't match array").
Proof.
  eapply (getitem_missing_mask images_only_store example_dataset 0).
  - reflexivity.
  - vm_compute. reflexivity.
  - reflexivity.
  - intros g H. vm_compute in H. discriminate H.
  - reflexivity.
Defined.
End dataset_more.

(** * More on the training script *)

Module main_more.
Import dataset main dataset_spec main_spec dataset_facts result_facts main_facts.
Local Open Scope Qc_scope.

Lemma main_testing_run env out_dir test_dir w :
  main_testing env out_dir test_dir w
  = match lookup_file (fs w) (checkpoint_path out_dir) with
    | Some (Pickle e) =>
        (Raise unexpected_data_dir,
         {| fs := fs w; events := events w ++ [EvLoad (checkpoint_path out_dir)] |})
    | Some (Picture _) => (Raise (RuntimeError "Invalid magic number; corrupt file?"), w)
    | None => (Raise (FileNotFoundError (path_str (checkpoint_path out_dir))), w)
    end.
Proof.
  unfold main_testing, mbind, Run_bind, torch_load. fold (checkpoint_path out_dir).
  by destruct (lookup_file (fs w) (checkpoint_path out_dir)) as [[f|e]|].
Qed.

(** The part of [main] that follows the two data sets never completes:
    for every number of epochs, learning rate, collaborators and store it
    ends in an exception. *)
Theorem main_run_always_raises env n r test_dir w :
  ∃ e w', main_run env n r test_dir w = (Raise e, w').
Proof.
  unfold main_run. unfold mbind at 1, Run_bind at 1.
  rewrite main_setup_run. destruct (fs w !! run_dir env) as [old|] eqn:Hdir.
  - by eexists _, _.
  - unfold mbind at 1, Run_bind at 1. unfold main_training.
    erewrite epochs_run by (cbn [fs]; apply lookup_insert_eq).
    rewrite main_testing_run.
    destruct (lookup_file _ _) as [[f|e]|]; by eexists _, _.
Qed.

(** When the run directory is already there, [out_dir.mkdir(parents=True)]
    raises FileExistsError, and nothing has been trained, written or
    logged. *)
Theorem main_run_existing_directory env n r test_dir w old :
  fs w !! run_dir env = Some old →
  main_run env n r test_dir w = (Raise (FileExistsError (run_dir env)), w).
Proof.
  intros Hdir. unfold main_run. unfold mbind at 1, Run_bind at 1.
  by rewrite main_setup_run, Hdir.
Qed.

Lemma main_run_existing_directory_witness :
  main_run (example_env [] 2) 3 config.LEARNING_RATE "data/test" (example_world "out/run_0")
  = (Raise (FileExistsError "out/run_0"), example_world "out/run_0").
Proof.
  apply (main_run_existing_directory (example_env [] 2) 3 config.LEARNING_RATE
           "data/test" (example_world "out/run_0") ∅).
  reflexivity.
Defined.

Lemma no_saves_best acc n :
  filter (fun i => best_so_far acc i < acc i) (seq 0 n) = [] → best_so_far acc n = 0.
Proof.
  induction n as [|n IH]; [done|].
  rewrite seq_S, filter_app, filter_cons, filter_nil. simpl.
  destruct (decide (best_so_far acc n < acc n)) as [Hlt|Hn].
  - intros H. by apply app_eq_nil in H as [_ ?].
  - rewrite app_nil_r. apply IH.
Qed.

(** With a new run directory and at least one epoch whose accuracy is
    above 0, the run gets as far as the test phase: it loads
    best_model.pth, once, the file holds the model of the last epoch
    that saved, whose accuracy is the best of the run, and the run ends in
    the TypeError of the test data set being built with [data_dir]. *)
Theorem main_run_after_improvement env n r test_dir w i :
  fs w !! run_dir env = None →
  (i < n)%nat → 0 < get_accuracy env i →
  ∃ e w',
    main_run env n r test_dir w = (Raise unexpected_data_dir, w') ∧
    last (saves (events w')) = Some e ∧
    lookup_file (fs w') (checkpoint_path (run_dir env)) = Some (Pickle e) ∧
    loads (events w') = loads (events w) ++ [checkpoint_path (run_dir env)] ∧
    get_accuracy env e = best_so_far (get_accuracy env) n.
Proof.
  intros Hdir Hi Hacc. unfold main_run. unfold mbind at 1, Run_bind at 1.
  rewrite main_setup_run, Hdir.
  unfold mbind at 1, Run_bind at 1. unfold main_training.
  erewrite epochs_run by (cbn [fs]; apply lookup_insert_eq).
  rewrite main_testing_run. cbn [fs events].
  rewrite run_saves.
  destruct (last (filter (fun j => best_so_far (get_accuracy env) j < get_accuracy env j)
                    (seq 0 n))) as [e|] eqn:Hlast.
  - pose proof (last_improvement _ _ _ Hlast) as (_ & _ & Hbest).
    unfold store_after, lookup_file. rewrite Hlast. cbn [dir name checkpoint_path].
    rewrite lookup_insert_eq. simpl. rewrite lookup_insert_eq.
    exists e. eexists. split; [reflexivity|]. cbn [events fs].
    rewrite !saves_app, run_saves, !loads_app, loads_run. simpl.
    rewrite !app_nil_r, last_app, Hlast. split.
    + done.
    + split; [by rewrite lookup_insert_eq; simpl; rewrite lookup_insert_eq|].
      split; [done|]. done.
  - exfalso. apply last_None in Hlast. apply no_saves_best in Hlast.
    pose proof (best_so_far_upper (get_accuracy env) n i Hi) as Hup.
    rewrite Hlast in Hup. by eapply Qclt_not_le.
Qed.

Lemma main_run_after_improvement_witness :
  ∃ w',
    main_run (example_env [Q2Qc (5 # 10); Q2Qc (7 # 10); Q2Qc (6 # 10)] 1) 3
      config.LEARNING_RATE "data/test" {| fs := ∅; events := [] |}
    = (Raise unexpected_data_dir, w') ∧
    lookup_file (fs w') (checkpoint_path "out/run_0") = Some (Pickle 1) ∧
    loads (events w') = [checkpoint_path "out/run_0"].
Proof.
  destruct (main_run_after_improvement
              (example_env [Q2Qc (5 # 10); Q2Qc (7 # 10); Q2Qc (6 # 10)] 1) 3
              config.LEARNING_RATE "data/test" {| fs := ∅; events := [] |} 0)
    as (e & w' & Hrun & Hlast & Hfile & Hloads & Hbest).
  - reflexivity.
  - lia.
  - by vm_compute.
  - exists w'. split; [exact Hrun|]. split; [|exact Hloads].
    pose proof Hrun as Hw. vm_compute in Hw. injection Hw as <-. by vm_compute.
Defined.

Lemma flat_map_agree {A B} (f g : A → list B) l :
  (∀ x, In x l → f x = g x) → flat_map f l = flat_map g l.
Proof.
  induction l as [|x l IH]; intros H; [done|]. simpl.
  rewrite (H x) by (by left). rewrite IH; [done|]. intros y Hy. apply H. by right.
Qed.

(** For a run of any number of epochs in an existing run directory:
    training returns; with at most 26 epochs every batch of every epoch is
    trained with the initial rate; with at most 25 epochs (as with
    NUM_EPOCHS = 20 of config.py) the rate is never decayed and is still
    the initial one at the end; with 26 or more it is decayed exactly once,
    after epoch 25, to a tenth. *)
Theorem learning_rate_any_length env n out_dir r w entries :
  fs w !! out_dir = Some entries →
  ∃ st w' evs,
    main_training env n out_dir r w = (OK st, w') ∧
    events w' = events w ++ evs ∧
    ((n ≤ 26)%nat →
       train_steps evs
       = flat_map (fun i => (fun b => (i, b, r)) <$> seq 0 (len_train_loader env)) (seq 0 n)) ∧
    ((n ≤ 25)%nat → decays evs = [] ∧ lr st = r) ∧
    ((26 ≤ n)%nat → decays evs = [25%nat] ∧ lr st = r * Q2Qc (1 # 10)).
Proof.
  intros Hdir. unfold main_training. rewrite (epochs_run _ _ _ _ _ _ Hdir).
  eexists _, _, _. split; [reflexivity|]. cbn [events fs].
  split; [reflexivity|]. split; [|split].
  - intros Hn. rewrite run_train_steps. apply flat_map_agree. intros i Hi.
    apply in_seq in Hi. unfold rate_in_epoch. by rewrite decide_True by lia.
  - intros Hn. rewrite run_decays, run_lr. unfold rate_in_epoch.
    by rewrite decide_False, decide_True by lia.
  - intros Hn. rewrite run_decays, run_lr. unfold rate_in_epoch.
    by rewrite decide_True, decide_False by lia.
Qed.

Lemma learning_rate_any_length_witness :
  ∃ st w' evs,
    main_training (example_env [] 2) config.NUM_EPOCHS "out/run_0" config.LEARNING_RATE
      (example_world "out/run_0") = (OK st, w') ∧
    events w' = evs ∧ decays evs = [] ∧ lr st = config.LEARNING_RATE ∧
    length (train_steps evs) = 40%nat.
Proof.
  destruct (learning_rate_any_length (example_env [] 2) config.NUM_EPOCHS "out/run_0"
              config.LEARNING_RATE (example_world "out/run_0") ∅ eq_refl)
    as (st & w' & evs & Hrun & Hev & Hsteps & Hshort & _).
  exists st, w', evs. split; [exact Hrun|]. split; [exact Hev|].
  destruct Hshort as [Hd Hlr]; [unfold config.NUM_EPOCHS; lia|].
  split; [exact Hd|]. split; [exact Hlr|].
  rewrite Hsteps by (unfold config.NUM_EPOCHS; lia). reflexivity.
Defined.


End main_more.

(** * More on the utilities *)

Module utils_more.
Import utils utils_spec utils_examples result_facts utils_facts.
Local Open Scope Qc_scope.

(** ** [most] *)

Lemma py_sum_bounds l : (0 ≤ py_sum l ≤ Z.of_nat (length l))%Z.
Proof. induction l as [|[] l IH]; simpl; lia. Qed.

Lemma py_sum_all l : py_sum l = Z.of_nat (length l) ↔ Forall (fun b => b = true) l.
Proof.
  induction l as [|b l IH]; simpl.
  - split; [constructor|done].
  - pose proof (py_sum_bounds l). rewrite Forall_cons. destruct b; simpl.
    + rewrite <- IH. split; [intros; split; [done|lia]|intros [_ ?]; lia].
    + split; [lia|intros [? _]; done].
Qed.

(** With factor 1, [most] is [all]: it answers True exactly when every
    element of the list is True. *)
Theorem most_one_is_all l :
  most l 1 = true ↔ Forall (fun b => b = true) l.
Proof.
  unfold most. rewrite bool_decide_eq_true, Qcmult_1_l, <- Z2Qc_inj_le, <- py_sum_all.
  pose proof (py_sum_bounds l). lia.
Qed.




(** ** The value-range adapters *)







(** ** The compatibility checks *)

Lemma getitem_inv (cfg : Config) k v : getitem cfg k = OK v ↔ cfg !! k = Some v.
Proof. unfold getitem. destruct (cfg !! k); split; congruence. Qed.

Lemma unpack3_inv v a b c : unpack3 v = OK (a, b, c) ↔ v = VSeq [a; b; c].
Proof.
  destruct v as [| | |[|? [|? [|? [|? ?]]]]]; simpl; split; try done;
    intros; by simplify_eq.
Qed.

Lemma to_list_inv v l : to_list v = OK l ↔ v = VSeq l.
Proof. destruct v; simpl; split; try done; intros; by simplify_eq. Qed.

Lemma check_model_compatibility_returns mc rc model strict pp rc' :
  check_model_compatibility mc rc model strict = (OK pp, rc') ↔
  ∃ pp0, check_value_range mc rc strict ([], []) = OK pp0 ∧
         check_actions mc rc model = OK tt ∧
         check_img_shape mc rc strict pp0 = OK pp ∧
         check_frames mc rc model = (OK tt, rc').
Proof.
  unfold check_model_compatibility. split.
  - intros H.
    destruct (check_value_range mc rc strict ([], [])) as [pp0|e] eqn:Hvr; [|done].
    rewrite bind_OK in H.
    destruct (check_actions mc rc model) as [[]|e]; [|done].
    rewrite bind_OK in H.
    destruct (check_img_shape mc rc strict pp0) as [pp1|e] eqn:Hs; [|done].
    destruct (check_frames mc rc model) as [[[]|e] rc1]; [|done].
    simplify_eq. by exists pp0.
  - intros (pp0 & -> & -> & Hs & ->). rewrite !bind_OK. by rewrite Hs.
Qed.

Lemma check_value_range_inv mc rc strict pp pp' :
  check_value_range mc rc strict pp = OK pp' →
  ∃ mr tr,
    mc !! "tensor_value_range" = Some (VSeq mr) ∧
    rc !! "tensor_value_range" = Some (VSeq tr) ∧
    (mr = tr ∧ pp' = pp ∨
     mr ≠ tr ∧ strict = false ∧ ∃ stm stt,
       ScaleToModel.init mr tr = OK stm ∧ ScaleToTest.init mr tr = OK stt ∧
       pp' = (pp.1 ++ [TScaleToModel stm], pp.2 ++ [TScaleToTest stt])).
Proof.
  unfold check_value_range. intros H.
  apply bind_inv in H as (mv & Hmv & H). apply getitem_inv in Hmv.
  apply bind_inv in H as (mr & Hmr & H). apply to_list_inv in Hmr as ->.
  apply bind_inv in H as (tv & Htv & H). apply getitem_inv in Htv.
  apply bind_inv in H as (tr & Htr & H). apply to_list_inv in Htr as ->.
  exists mr, tr. split; [done|]. split; [done|].
  destruct (decide (mr ≠ tr)) as [Hne|Heq].
  - destruct strict; [done|]. right. split; [done|]. split; [done|].
    apply bind_inv in H as (stm & Hstm & H).
    apply bind_inv in H as (stt & Hstt & H).
    exists stm, stt. by simplify_eq.
  - left. split; [by destruct (decide (mr = tr))|by simplify_eq].
Qed.

Lemma check_img_shape_returns mc rc strict pp pp' :
  check_img_shape mc rc strict pp = OK pp' →
  ∃ c mh mw th tw,
    mc !! "img_shape" = Some (VSeq [c; mh; mw]) ∧
    rc !! "img_shape" = Some (VSeq [c; th; tw]) ∧
    (mh = th ∧ mw = tw ∧ pp' = pp ∨
     (mh ≠ th ∨ mw ≠ tw) ∧ strict = false ∧
       pp' = (pp.1 ++ [TResize mh mw], pp.2 ++ [TResize th tw])).
Proof.
  unfold check_img_shape. intros H.
  apply bind_inv in H as (ms & Hms & H). apply getitem_inv in Hms.
  apply bind_inv in H as ([[c mh] mw] & Hu & H). apply unpack3_inv in Hu as ->.
  apply bind_inv in H as (ts & Hts & H). apply getitem_inv in Hts.
  apply bind_inv in H as ([[c' th] tw] & Hu & H). apply unpack3_inv in Hu as ->.
  destruct (decide (c ≠ c')) as [|Hc]; [done|].
  assert (c = c') as <- by (by destruct (decide (c = c'))).
  exists c, mh, mw, th, tw. split; [done|]. split; [done|].
  destruct (decide (mh ≠ th ∨ mw ≠ tw)) as [Hne|Heq].
  - destruct strict; [done|]. right. by simplify_eq.
  - left. simplify_eq.
    destruct (decide (mh = th)); [|by destruct Heq; left].
    destruct (decide (mw = tw)); [|by destruct Heq; right]. done.
Qed.

(** What [check_model_compatibility] returns: both value ranges are
    sequences, both image shapes have three entries and the same number of
    channels; the preprocessing is the ScaleToModel (there exactly when the
    value ranges differ) followed by the resize to the model's height and
    width (there exactly when height or width differ), the postprocessing
    the ScaleToTest followed by the resize to the run's height and width;
    and in strict mode a call returns only when ranges and sizes agree,
    with both pipelines empty. *)
Theorem returned_pipelines mc rc model strict pre post rc' :
  check_model_compatibility mc rc model strict = (OK (pre, post), rc') →
  ∃ mr tr c mh mw th tw scale_pre scale_post,
    mc !! "tensor_value_range" = Some (VSeq mr) ∧
    rc !! "tensor_value_range" = Some (VSeq tr) ∧
    mc !! "img_shape" = Some (VSeq [c; mh; mw]) ∧
    rc !! "img_shape" = Some (VSeq [c; th; tw]) ∧
    pre = scale_pre ++ (if decide (mh = th ∧ mw = tw) then [] else [TResize mh mw]) ∧
    post = scale_post ++ (if decide (mh = th ∧ mw = tw) then [] else [TResize th tw]) ∧
    (mr = tr → scale_pre = [] ∧ scale_post = []) ∧
    (mr ≠ tr → ∃ stm stt,
       ScaleToModel.init mr tr = OK stm ∧ ScaleToTest.init mr tr = OK stt ∧
       scale_pre = [TScaleToModel stm] ∧ scale_post = [TScaleToTest stt]) ∧
    (strict = true → mr = tr ∧ mh = th ∧ mw = tw ∧ pre = [] ∧ post = []).
Proof.
  intros H. apply check_model_compatibility_returns in H as (pp0 & Hvr & _ & Hs & _).
  apply check_value_range_inv in Hvr as (mr & tr & Hmr & Htr & Hvr).
  apply check_img_shape_returns in Hs as (c & mh & mw & th & tw & Hms & Hts & Hs).
  exists mr, tr, c, mh, mw, th, tw, pp0.1, pp0.2.
  do 4 (split; [done|]).
  assert (Hpre : pre = pp0.1 ++ (if decide (mh = th ∧ mw = tw) then [] else [TResize mh mw])
               ∧ post = pp0.2 ++ (if decide (mh = th ∧ mw = tw) then [] else [TResize th tw])).
  { destruct Hs as [(-> & -> & Hpp)|(Hne & _ & Hpp)].
    - rewrite !decide_True by done. rewrite !app_nil_r. by rewrite <- Hpp.
    - rewrite !decide_False by (intros [? ?]; destruct Hne; done). by simplify_eq. }
  destruct Hpre as [Hpre Hpost]. do 2 (split; [done|]).
  destruct Hvr as [(-> & ->)|(Hne & Hstrict & stm & stt & Hstm & Hstt & ->)].
  - split; [done|]. split; [done|]. intros ->.
    destruct Hs as [(-> & -> & Hpp)|(_ & ? & _)]; [|done]. by simplify_eq.
  - split; [done|]. split; [intros _; by exists stm, stt|]. intros ->. done.
Qed.

Lemma returned_pipelines_witness :
  ∃ mr tr c mh mw th tw scale_pre scale_post,
    example_config [Q2Qc (-1); Q2Qc 1] !! "tensor_value_range" = Some (VSeq mr) ∧
    resized_config !! "tensor_value_range" = Some (VSeq tr) ∧
    example_config [Q2Qc (-1); Q2Qc 1] !! "img_shape" = Some (VSeq [c; mh; mw]) ∧
    resized_config !! "img_shape" = Some (VSeq [c; th; tw]) ∧
    resized_pipelines.1
      = scale_pre ++ (if decide (mh = th ∧ mw = tw) then [] else [TResize mh mw]) ∧
    resized_pipelines.2
      = scale_post ++ (if decide (mh = th ∧ mw = tw) then [] else [TResize th tw]) ∧
    (mr = tr → scale_pre = [] ∧ scale_post = []) ∧
    (mr ≠ tr → ∃ stm stt,
       ScaleToModel.init mr tr = OK stm ∧ ScaleToTest.init mr tr = OK stt ∧
       scale_pre = [TScaleToModel stm] ∧ scale_post = [TScaleToTest stt]) ∧
    (false = true → mr = tr ∧ mh = th ∧ mw = tw
                    ∧ resized_pipelines.1 = [] ∧ resized_pipelines.2 = []).
Proof.
  apply (returned_pipelines (example_config [Q2Qc (-1); Q2Qc 1]) resized_config
           example_model false resized_pipelines.1 resized_pipelines.2 resized_config).
  vm_compute. reflexivity.
Defined.

Lemma check_actions_inv mc rc model :
  check_actions mc rc model = OK tt ↔
  ∃ mdl_ac run_ac,
    mc !! "use_actions" = Some mdl_ac ∧ rc !! "use_actions" = Some run_ac ∧
    (can_handle_actions model = true →
       truthy mdl_ac = truthy run_ac ∧
       (truthy mdl_ac = true →
          ∃ a b, mc !! "action_size" = Some a ∧ rc !! "action_size" = Some b ∧
                 value_eqb a b = true)).
Proof.
  unfold check_actions, getitem. split.
  - intros H.
    destruct (mc !! "use_actions") as [mdl_ac|]; [|done].
    destruct (rc !! "use_actions") as [run_ac|]; [|done].
    rewrite !bind_OK in H. exists mdl_ac, run_ac. split; [done|]. split; [done|].
    intros Hcan. rewrite Hcan in H.
    destruct (truthy mdl_ac), (truthy run_ac); simpl in H; try done.
    split; [done|]. intros _.
    destruct (mc !! "action_size") as [a|]; [|done].
    destruct (rc !! "action_size") as [b|]; [|done].
    rewrite !bind_OK in H. exists a, b. by destruct (value_eqb a b).
  - intros (mdl_ac & run_ac & -> & -> & H). rewrite !bind_OK.
    destruct (can_handle_actions model); [|done].
    destruct (H eq_refl) as [Heq Hsize]. rewrite <- Heq.
    destruct (truthy mdl_ac); [|done]. simpl.
    destruct (Hsize eq_refl) as (a & b & -> & -> & Hab). by rewrite !bind_OK, Hab.
Qed.

(** A call of [check_model_compatibility] that returns found use_actions
    in both configurations, and for a model that can handle actions the
    two agree in truth value; if they are true, both configurations have an
    action_size and the two are equal. *)
Theorem returned_actions_agree mc rc model strict pp rc' :
  check_model_compatibility mc rc model strict = (OK pp, rc') →
  ∃ mdl_ac run_ac,
    mc !! "use_actions" = Some mdl_ac ∧ rc !! "use_actions" = Some run_ac ∧
    (can_handle_actions model = true →
       truthy mdl_ac = truthy run_ac ∧
       (truthy mdl_ac = true →
          ∃ a b, mc !! "action_size" = Some a ∧ rc !! "action_size" = Some b ∧
                 value_eqb a b = true)).
Proof.
  intros H. apply check_model_compatibility_returns in H as (pp0 & _ & Ha & _ & _).
  by apply check_actions_inv.
Qed.

Lemma returned_actions_agree_witness :
  ∃ mdl_ac run_ac,
    action_config !! "use_actions" = Some mdl_ac ∧
    action_config !! "use_actions" = Some run_ac ∧
    (can_handle_actions action_model = true →
       truthy mdl_ac = truthy run_ac ∧
       (truthy mdl_ac = true →
          ∃ a b, action_config !! "action_size" = Some a ∧
                 action_config !! "action_size" = Some b ∧
                 value_eqb a b = true)).
Proof.
  apply (returned_actions_agree action_config action_config action_model true
           ([], []) action_config).
  vm_compute. reflexivity.
Defined.

(** [check_dataset_compatibility] passes exactly when both configurations
    have an img_shape and the two are equal and, for a model that can
    handle actions, the model configuration has action_conditional and, if
    that is true, both configurations have an action_size and the two are
    equal; the image shapes are sequences of one kind. *)
Theorem check_dataset_compatibility_iff mc dc model :
  check_dataset_compatibility mc dc model = OK tt ↔
  ∃ ms ds,
    mc !! "img_shape" = Some ms ∧ dc !! "img_shape" = Some ds ∧
    value_eqb ms ds = true ∧
    (can_handle_actions model = true →
       ∃ ac, mc !! "action_conditional" = Some ac ∧
             (truthy ac = true →
                ∃ a b, mc !! "action_size" = Some a ∧ dc !! "action_size" = Some b ∧
                       value_eqb a b = true)).
Proof.
  unfold check_dataset_compatibility, getitem. split.
  - intros H.
    destruct (mc !! "img_shape") as [ms|]; [|done].
    destruct (dc !! "img_shape") as [ds|]; [|done].
    rewrite !bind_OK in H. exists ms, ds. split; [done|]. split; [done|].
    destruct (value_eqb ms ds); [|done]. split; [done|]. simpl in H.
    intros Hcan. rewrite Hcan in H.
    destruct (mc !! "action_conditional") as [ac|]; [|done].
    rewrite bind_OK in H. exists ac. split; [done|]. intros Hac. rewrite Hac in H.
    destruct (mc !! "action_size") as [a|]; [|done].
    destruct (dc !! "action_size") as [b|]; [|done].
    rewrite !bind_OK in H. exists a, b. by destruct (value_eqb a b).
  - intros (ms & ds & -> & -> & Heq & H). rewrite !bind_OK, Heq. simpl.
    destruct (can_handle_actions model); [|done].
    destruct (H eq_refl) as (ac & -> & Hsize). rewrite bind_OK.
    destruct (truthy ac); [|done].
    destruct (Hsize eq_refl) as (a & b & -> & -> & Hab). by rewrite !bind_OK, Hab.
Qed.

Lemma check_frames_inv mc rc model r rc' :
  check_frames mc rc model = (r, rc') →
  (r = OK tt ∧
   ∃ cf pf, rc !! "context_frames" = Some cf ∧ rc !! "pred_frames" = Some pf ∧
     (cf = VNone ∧ (∃ v, mc !! "context_frames" = Some v ∧
                         rc' !! "context_frames" = Some v)
      ∨ cf ≠ VNone ∧ rc' !! "context_frames" = Some cf ∧
        ∃ x, as_number cf = Some x ∧ min_context_frames model ≤ x) ∧
     (pf = VNone ∧ (∃ v, mc !! "pred_frames" = Some v ∧ rc' !! "pred_frames" = Some v)
      ∨ pf ≠ VNone ∧ rc' !! "pred_frames" = Some pf) ∧
     (∀ k, k ≠ "context_frames" → k ≠ "pred_frames" → rc' !! k = rc !! k))
  ∨ (∃ e, r = Raise e ∧
      (rc' = rc
       ∨ e = KeyError "pred_frames" ∧ rc !! "context_frames" = Some VNone ∧
         ∃ v, mc !! "context_frames" = Some v ∧ rc' = <["context_frames" := v]> rc)).
Proof.
  unfold check_frames, getitem, value_ltb. intros H.
  destruct (rc !! "context_frames") as [cf|] eqn:Hcf;
    [|right; simplify_eq; eexists; split; [done|by left]].
  destruct (decide (cf = VNone)) as [->|Hne].
  - destruct (mc !! "context_frames") as [v|] eqn:Hmv; cbn [mbind result_bind] in H;
      [|right; simplify_eq; eexists; split; [done|by left]].
    rewrite lookup_insert_ne in H by done.
    destruct (rc !! "pred_frames") as [pf|] eqn:Hpf;
      [|right; simplify_eq; eexists; split; [done|right; eauto]].
    destruct (decide (pf = VNone)) as [->|Hpne].
    + destruct (mc !! "pred_frames") as [w|] eqn:Hmw;
        [|right; simplify_eq; eexists; split; [done|right; eauto]].
      left. simplify_eq. split; [done|]. exists VNone, VNone.
      split; [done|]. split; [done|]. split; [|split].
      * left. split; [done|]. exists v. split; [done|].
        rewrite lookup_insert_ne by done. by rewrite lookup_insert_eq.
      * left. split; [done|]. exists w. split; [done|]. by rewrite lookup_insert_eq.
      * intros k Hk1 Hk2. by rewrite !lookup_insert_ne.
    + left. simplify_eq. split; [done|]. exists VNone, pf.
      split; [done|]. split; [done|]. split; [|split].
      * left. split; [done|]. exists v. split; [done|]. by rewrite lookup_insert_eq.
      * right. split; [done|]. by rewrite lookup_insert_ne.
      * intros k Hk1 Hk2. by rewrite lookup_insert_ne.
  - destruct (as_number cf) as [x|] eqn:Hx; cbn [mbind result_bind] in H;
      [|right; simplify_eq; eexists; split; [done|by left]].
    destruct (bool_decide (x < min_context_frames model)) eqn:Hlt;
      [right; simplify_eq; eexists; split; [done|by left]|].
    apply bool_decide_eq_false in Hlt. apply Qcnot_lt_le in Hlt.
    destruct (rc !! "pred_frames") as [pf|] eqn:Hpf;
      [|right; simplify_eq; eexists; split; [done|by left]].
    destruct (decide (pf = VNone)) as [->|Hpne].
    + destruct (mc !! "pred_frames") as [w|] eqn:Hmw;
        [|right; simplify_eq; eexists; split; [done|by left]].
      left. simplify_eq. split; [done|]. exists cf, VNone.
      split; [done|]. split; [done|]. split; [|split].
      * right. split; [done|]. split; [by rewrite lookup_insert_ne|]. by exists x.
      * left. split; [done|]. exists w. split; [done|]. by rewrite lookup_insert_eq.
      * intros k Hk1 Hk2. by rewrite lookup_insert_ne.
    + left. simplify_eq. split; [done|]. exists cf, pf.
      split; [done|]. split; [done|]. split; [|split].
      * right. split; [done|]. split; [done|]. by exists x.
      * by right.
      * done.
Qed.

(** [run_config] after a call of [check_model_compatibility] that returns:
    it had context_frames and pred_frames; each of the two that was None
    now holds the value of the model configuration, each that was not is
    unchanged; context_frames, where it was given, is a number not below
    the model's min_context_frames; every other key is as it was. *)
Theorem returned_run_config mc rc model strict pp rc' :
  check_model_compatibility mc rc model strict = (OK pp, rc') →
  ∃ cf pf, rc !! "context_frames" = Some cf ∧ rc !! "pred_frames" = Some pf ∧
    (cf = VNone ∧ (∃ v, mc !! "context_frames" = Some v ∧
                        rc' !! "context_frames" = Some v)
     ∨ cf ≠ VNone ∧ rc' !! "context_frames" = Some cf ∧
       ∃ x, as_number cf = Some x ∧ min_context_frames model ≤ x) ∧
    (pf = VNone ∧ (∃ v, mc !! "pred_frames" = Some v ∧ rc' !! "pred_frames" = Some v)
     ∨ pf ≠ VNone ∧ rc' !! "pred_frames" = Some pf) ∧
    (∀ k, k ≠ "context_frames" → k ≠ "pred_frames" → rc' !! k = rc !! k).
Proof.
  intros H. apply check_model_compatibility_returns in H as (pp0 & _ & _ & _ & Hf).
  apply check_frames_inv in Hf as [[_ Hf]|(e & ? & _)]; done.
Qed.

Lemma returned_run_config_witness :
  ∃ cf pf, open_config !! "context_frames" = Some cf ∧
    open_config !! "pred_frames" = Some pf ∧
    (cf = VNone ∧ (∃ v, example_config [Q2Qc 0; Q2Qc 1] !! "context_frames" = Some v ∧
                        example_config [Q2Qc 0; Q2Qc 1] !! "context_frames" = Some v)
     ∨ cf ≠ VNone ∧ example_config [Q2Qc 0; Q2Qc 1] !! "context_frames" = Some cf ∧
       ∃ x, as_number cf = Some x ∧ min_context_frames example_model ≤ x) ∧
    (pf = VNone ∧ (∃ v, example_config [Q2Qc 0; Q2Qc 1] !! "pred_frames" = Some v ∧
                        example_config [Q2Qc 0; Q2Qc 1] !! "pred_frames" = Some v)
     ∨ pf ≠ VNone ∧ example_config [Q2Qc 0; Q2Qc 1] !! "pred_frames" = Some pf) ∧
    (∀ k, k ≠ "context_frames" → k ≠ "pred_frames" →
          example_config [Q2Qc 0; Q2Qc 1] !! k = open_config !! k).
Proof.
  apply (returned_run_config (example_config [Q2Qc 0; Q2Qc 1]) open_config
           example_model true ([], []) (example_config [Q2Qc 0; Q2Qc 1])).
  vm_compute. reflexivity.
Defined.

(** [run_config] after a call of [check_model_compatibility] that raises:
    it is unchanged, except in one case, where the exception is the
    KeyError of pred_frames and context_frames, which was None, has
    already been overwritten with the model's value. *)
Theorem failed_run_config mc rc model strict e rc' :
  check_model_compatibility mc rc model strict = (Raise e, rc') →
  rc' = rc
  ∨ e = KeyError "pred_frames" ∧ rc !! "context_frames" = Some VNone ∧
    ∃ v, mc !! "context_frames" = Some v ∧ rc' = <["context_frames" := v]> rc.
Proof.
  unfold check_model_compatibility. intros H.
  destruct (_ ≫= _) as [pp|e0]; [|left; by simplify_eq].
  destruct (check_frames mc rc model) as [r rc1] eqn:Hf.
  apply check_frames_inv in Hf as [[-> _]|(e1 & -> & Hf)]; [done|].
  by simplify_eq.
Qed.

Lemma failed_run_config_witness :
  <["context_frames" := VNum (Q2Qc 4)]> half_open_config = half_open_config
  ∨ KeyError "pred_frames" = KeyError "pred_frames" ∧
    half_open_config !! "context_frames" = Some VNone ∧
    ∃ v, example_config [Q2Qc 0; Q2Qc 1] !! "context_frames" = Some v ∧
         <["context_frames" := VNum (Q2Qc 4)]> half_open_config
         = <["context_frames" := v]> half_open_config.
Proof.
  apply (failed_run_config (example_config [Q2Qc 0; Q2Qc 1]) half_open_config
           example_model true (KeyError "pred_frames")
           (<["context_frames" := VNum (Q2Qc 4)]> half_open_config)).
  vm_compute. reflexivity.
Defined.

End utils_more.
